(** * loja_de_musica.py: stores, employees and instrument stock

    A shallow embedding of [src/loja_de_musica.py].  Python objects live in
    a heap and are named by references; a list attribute holds references,
    and [list.remove] compares by identity (none of the classes defines
    [__eq__]), which is equality of references here.  Methods are
    computations in a state-and-exception monad over the heap: a raised
    exception keeps whatever the method had already written. *)

From Stdlib Require Import ZArith Ascii Floats.PrimFloat.
From stdpp Require Import gmap strings list fin_maps pretty.

Local Open Scope Z_scope.
Local Open Scope string_scope.
Local Open Scope list_scope.

(** ** Objects and the heap *)

Abbreviation loja_ref := nat (only parsing).
Abbreviation func_ref := nat (only parsing).
Abbreviation instr_ref := nat (only parsing).

(** The three concrete subclasses of the abstract class [Instrumento] that
    the program defines. *)
Inductive Instrumento : Type :=
  | Baixo (marca modelo : string) (preco : float) (num_cordas : Z)
          (fretless : bool)
  | Guitarra (marca modelo : string) (preco : float) (num_cordas : Z)
             (tipo_captador : string)
  | Violao (marca modelo : string) (preco : float) (num_cordas : Z)
           (tipo_corpo : string).

(** What a variable annotated [Instrumento] can hold.  The abstract base
    class is open: besides an instance of one of the three classes above
    (or of a subclass of one of them, which [isinstance] does not tell
    apart), it can be an instance of some other subclass.  No method of
    [Loja] reads an attribute of an instrument, so such an object is known
    by its reference only. *)
Inductive instancia : Type :=
  | DaClasse (ins : Instrumento)
  | DeOutraSubclasse.

Coercion DaClasse : Instrumento >-> instancia.

Record Funcionario : Type := mkFuncionario {
  nome_completo : string;
  cpf : string;
  salario : float;
  cargo : string;
  loja_atual : option loja_ref
}.

Record Loja : Type := mkLoja {
  localizacao : string;
  funcionarios : list func_ref;
  estoque : list instr_ref;
  loja_mais_proxima : option loja_ref
}.

Record Heap : Type := mkHeap {
  lojas : gmap nat Loja;
  pessoal : gmap nat Funcionario;
  instrumentos : gmap nat instancia
}.

Definition heap_vazio : Heap := mkHeap ∅ ∅ ∅.

Definition com_funcionarios (l : list func_ref) (L : Loja) : Loja :=
  mkLoja (localizacao L) l (estoque L) (loja_mais_proxima L).

Definition com_estoque (l : list instr_ref) (L : Loja) : Loja :=
  mkLoja (localizacao L) (funcionarios L) l (loja_mais_proxima L).

Definition com_loja_mais_proxima (p : option loja_ref) (L : Loja) : Loja :=
  mkLoja (localizacao L) (funcionarios L) (estoque L) p.

Definition com_loja_atual (s : option loja_ref) (F : Funcionario) : Funcionario :=
  mkFuncionario (nome_completo F) (cpf F) (salario F) (cargo F) s.

(** ** Exceptions and the method monad *)

(** [ValueError] is what [list.remove] raises, [KeyError] what a dict
    subscript raises; [BadRef] stands for a use of a reference that names
    no object, which a running Python program cannot hold. *)
Inductive exn : Type := ValueError | KeyError | BadRef.

Inductive outcome (A : Type) : Type :=
  | Ret (a : A)
  | Raise (e : exn).
Arguments Ret {A} a.
Arguments Raise {A} e.

Definition M (A : Type) : Type := Heap → outcome A * Heap.

Definition ret {A} (a : A) : M A := λ σ, (Ret a, σ).
Definition raise {A} (e : exn) : M A := λ σ, (Raise e, σ).
Definition bind {A B} (k : A → M B) (m : M A) : M B :=
  λ σ, match m σ with
       | (Ret a, σ') => k a σ'
       | (Raise e, σ') => (Raise e, σ')
       end.

#[export] Instance M_ret : MRet M := @ret.
#[export] Instance M_bind : MBind M := @bind.

Definition ler_loja (s : loja_ref) : M Loja :=
  λ σ, match lojas σ !! s with
       | Some L => (Ret L, σ)
       | None => (Raise BadRef, σ)
       end.

Definition ler_funcionario (e : func_ref) : M Funcionario :=
  λ σ, match pessoal σ !! e with
       | Some F => (Ret F, σ)
       | None => (Raise BadRef, σ)
       end.

Definition ler_instrumento (i : instr_ref) : M instancia :=
  λ σ, match instrumentos σ !! i with
       | Some ins => (Ret ins, σ)
       | None => (Raise BadRef, σ)
       end.

(** Attribute writes: [obj.attr = v] on a live object. *)
Definition alterar_loja (f : Loja → Loja) (s : loja_ref) : M unit :=
  λ σ, match lojas σ !! s with
       | Some L => (Ret tt, mkHeap (<[s := f L]> (lojas σ)) (pessoal σ) (instrumentos σ))
       | None => (Raise BadRef, σ)
       end.

Definition alterar_funcionario (f : Funcionario → Funcionario) (e : func_ref) : M unit :=
  λ σ, match pessoal σ !! e with
       | Some F => (Ret tt, mkHeap (lojas σ) (<[e := f F]> (pessoal σ)) (instrumentos σ))
       | None => (Raise BadRef, σ)
       end.

(** ** Python lists and dicts *)

(** [l.remove(x)]: drops the first item equal to [x]; [None] is the
    [ValueError] of an absent [x]. *)
Fixpoint py_remove (x : nat) (l : list nat) : option (list nat) :=
  match l with
  | [] => None
  | y :: l' => if decide (x = y) then Some l'
               else (λ r, y :: r) <$> py_remove x l'
  end.

(** A dict keeps its keys in insertion order; assigning to a key that is
    already there keeps the key's place. *)
Definition dict : Type := list (string * Z).

Fixpoint dict_get (k : string) (d : dict) : option Z :=
  match d with
  | [] => None
  | (k', v) :: d' => if decide (k = k') then Some v else dict_get k d'
  end.

Fixpoint dict_set (k : string) (v : Z) (d : dict) : dict :=
  match d with
  | [] => [(k, v)]
  | (k', v') :: d' => if decide (k = k') then (k, v) :: d'
                      else (k', v') :: dict_set k v d'
  end.

Definition dict_in (k : string) (d : dict) : bool :=
  bool_decide (is_Some (dict_get k d)).

(** [d[k] += 1] *)
Definition dict_incr (k : string) (d : dict) : M dict :=
  match dict_get k d with
  | Some v => mret (dict_set k (v + 1) d)
  | None => raise KeyError
  end.

(** [for x in l: acc = body x acc] *)
Fixpoint for_each {A S} (body : A → S → M S) (l : list A) (acc : S) : M S :=
  match l with
  | [] => mret acc
  | x :: l' => acc' ← body x acc; for_each body l' acc'
  end.

(** ** Constructors *)

(** [Baixo(...)], [Guitarra(...)], [Violao(...)] *)
Definition novo_instrumento (ins : Instrumento) : M instr_ref :=
  λ σ, let r := fresh (dom (instrumentos σ)) in
       (Ret r, mkHeap (lojas σ) (pessoal σ)
                      (<[r := DaClasse ins]> (instrumentos σ))).

(** An instance of another subclass of [Instrumento] comes into being in
    code outside this file; here it is only given a reference. *)
Definition nova_de_outra_subclasse : M instr_ref :=
  λ σ, let r := fresh (dom (instrumentos σ)) in
       (Ret r, mkHeap (lojas σ) (pessoal σ)
                      (<[r := DeOutraSubclasse]> (instrumentos σ))).

(** [Funcionario(nome_completo, cpf, salario, cargo)] *)
Definition novo_funcionario (nome cpf_ : string) (sal : float) (cargo_ : string)
  : M func_ref :=
  λ σ, let r := fresh (dom (pessoal σ)) in
       (Ret r, mkHeap (lojas σ)
                      (<[r := mkFuncionario nome cpf_ sal cargo_ None]> (pessoal σ))
                      (instrumentos σ)).

(** [Loja(localizacao)] *)
Definition nova_loja (loc : string) : M loja_ref :=
  λ σ, let r := fresh (dom (lojas σ)) in
       (Ret r, mkHeap (<[r := mkLoja loc [] [] None]> (lojas σ))
                      (pessoal σ) (instrumentos σ)).

(** ** Methods of [Loja] *)

Definition adicionar_funcionario (s : loja_ref) (e : func_ref) : M unit :=
  alterar_loja (λ L, com_funcionarios (funcionarios L ++ [e]) L) s;;
  alterar_funcionario (com_loja_atual (Some s)) e.

Definition remover_funcionario (s : loja_ref) (e : func_ref) : M unit :=
  L ← ler_loja s;
  match py_remove e (funcionarios L) with
  | None => raise ValueError
  | Some l' =>
      alterar_loja (com_funcionarios l') s;;
      alterar_funcionario (com_loja_atual None) e
  end.

Definition adicionar_instrumento (s : loja_ref) (i : instr_ref) : M unit :=
  alterar_loja (λ L, com_estoque (estoque L ++ [i]) L) s.

Definition remover_instrumento (s : loja_ref) (i : instr_ref) : M unit :=
  L ← ler_loja s;
  match py_remove i (estoque L) with
  | None => raise ValueError
  | Some l' => alterar_loja (com_estoque l') s
  end.

(** The body of the loop: the chain [if]/[elif]/[elif] has no [else], so
    an instance of no tested class leaves the dict as it is. *)
Definition contar_tipo (i : instr_ref) (d : dict) : M dict :=
  ins ← ler_instrumento i;
  match ins with
  | DaClasse (Baixo _ _ _ _ _) => dict_incr "Baixo" d
  | DaClasse (Guitarra _ _ _ _ _) => dict_incr "Guitarra" d
  | DaClasse (Violao _ _ _ _ _) => dict_incr "Violão" d
  | DeOutraSubclasse => mret d
  end.

Definition consultar_instrumentos (s : loja_ref) : M dict :=
  L ← ler_loja s;
  for_each contar_tipo (estoque L)
           [("Baixo", 0); ("Guitarra", 0); ("Violão", 0)].

Definition contar_cargo (e : func_ref) (d : dict) : M dict :=
  F ← ler_funcionario e;
  if dict_in (cargo F) d then dict_incr (cargo F) d
  else mret (dict_set (cargo F) 1 d).

Definition consultar_funcionarios_por_cargo (s : loja_ref) : M dict :=
  L ← ler_loja s;
  for_each contar_cargo (funcionarios L) [].

(** ** Method of [Funcionario] *)

Definition mudar_loja (e : func_ref) (nova_loja_ : loja_ref) : M unit :=
  F ← ler_funcionario e;
  match loja_atual F with
  | Some atual => remover_funcionario atual e
  | None => mret tt
  end;;
  adicionar_funcionario nova_loja_ e;;
  alterar_funcionario (com_loja_atual (Some nova_loja_)) e.

(** ** What a caller can observe *)

(** [s.funcionarios] and [s.estoque] ([[]] when [s] names no store), and
    [e.loja_atual] ([None] when [e] names no employee). *)
Definition quadro (σ : Heap) (s : loja_ref) : list func_ref :=
  from_option funcionarios [] (lojas σ !! s).

Definition estoque_de (σ : Heap) (s : loja_ref) : list instr_ref :=
  from_option estoque [] (lojas σ !! s).

Definition loja_de (σ : Heap) (e : func_ref) : option loja_ref :=
  pessoal σ !! e ≫= loja_atual.

(** [l.count(x)] *)
Definition ocorrencias (x : nat) (l : list nat) : nat :=
  length (filter (λ y, y = x) l).


(** Keys in insertion order, and the sum of the values. *)
Definition chaves (d : dict) : list string := d.*1.

Definition soma_valores (d : dict) : Z := foldr (λ kv acc, kv.2 + acc) 0 d.

(** ** Programs over the object graph *)

(** One statement of a caller: a constructor call, a method call, the
    attribute assignment [s.loja_mais_proxima = p] that [main] performs, or
    the creation of an instance of another subclass of [Instrumento]. *)
Inductive chamada : Type :=
  | NovaLoja (loc : string)
  | NovoFuncionario (nome cpf_ : string) (sal : float) (cargo_ : string)
  | NovoInstrumento (ins : Instrumento)
  | AdicionarFuncionario (s : loja_ref) (e : func_ref)
  | RemoverFuncionario (s : loja_ref) (e : func_ref)
  | AdicionarInstrumento (s : loja_ref) (i : instr_ref)
  | RemoverInstrumento (s : loja_ref) (i : instr_ref)
  | MudarLoja (e : func_ref) (s : loja_ref)
  | DefinirLojaMaisProxima (s p : loja_ref)
  | ConsultarInstrumentos (s : loja_ref)
  | ConsultarFuncionariosPorCargo (s : loja_ref)
  | NovaDeOutraSubclasse.

(** The heap after the statement, whether it returned or raised. *)
Definition executar (c : chamada) (σ : Heap) : Heap :=
  match c with
  | NovaLoja loc => (nova_loja loc σ).2
  | NovoFuncionario n c_ sl cg => (novo_funcionario n c_ sl cg σ).2
  | NovoInstrumento ins => (novo_instrumento ins σ).2
  | AdicionarFuncionario s e => (adicionar_funcionario s e σ).2
  | RemoverFuncionario s e => (remover_funcionario s e σ).2
  | AdicionarInstrumento s i => (adicionar_instrumento s i σ).2
  | RemoverInstrumento s i => (remover_instrumento s i σ).2
  | MudarLoja e s => (mudar_loja e s σ).2
  | DefinirLojaMaisProxima s p =>
      (alterar_loja (com_loja_mais_proxima (Some p)) s σ).2
  | ConsultarInstrumentos s => (consultar_instrumentos s σ).2
  | ConsultarFuncionariosPorCargo s => (consultar_funcionarios_por_cargo s σ).2
  | NovaDeOutraSubclasse => (nova_de_outra_subclasse σ).2
  end.

Definition tem_loja (σ : Heap) (s : loja_ref) : bool :=
  bool_decide (is_Some (lojas σ !! s)).
Definition tem_funcionario (σ : Heap) (e : func_ref) : bool :=
  bool_decide (is_Some (pessoal σ !! e)).
Definition tem_instrumento (σ : Heap) (i : instr_ref) : bool :=
  bool_decide (is_Some (instrumentos σ !! i)).

(** Every argument of the statement is a reference to a live object of the
    annotated class. *)
Definition bem_tipada (σ : Heap) (c : chamada) : bool :=
  match c with
  | NovaLoja _ | NovoFuncionario _ _ _ _ | NovoInstrumento _ => true
  | NovaDeOutraSubclasse => true
  | AdicionarFuncionario s e | RemoverFuncionario s e | MudarLoja e s =>
      tem_loja σ s && tem_funcionario σ e
  | AdicionarInstrumento s i | RemoverInstrumento s i =>
      tem_loja σ s && tem_instrumento σ i
  | DefinirLojaMaisProxima s p => tem_loja σ s && tem_loja σ p
  | ConsultarInstrumentos s | ConsultarFuncionariosPorCargo s => tem_loja σ s
  end.

(** The statements that move employees between stores. *)
Definition move_funcionario (c : chamada) : bool :=
  match c with
  | AdicionarFuncionario _ _ | RemoverFuncionario _ _ | MudarLoja _ _ => true
  | _ => false
  end.

(** The caller's discipline that [main] follows: [adicionar_funcionario] is
    only called for an employee that is in no store. *)
Definition disciplinada (σ : Heap) (c : chamada) : bool :=
  bem_tipada σ c &&
  match c with
  | AdicionarFuncionario _ e => bool_decide (loja_de σ e = None)
  | _ => true
  end.

(** Heaps a program can produce from nothing when each statement passes
    the check [ok]. *)
Inductive alcancavel (ok : Heap → chamada → bool) : Heap → Prop :=
  | alc_vazio : alcancavel ok heap_vazio
  | alc_passo σ c :
      alcancavel ok σ → ok σ c = true → alcancavel ok (executar c σ).

Fixpoint executar_todas (cs : list chamada) (σ : Heap) : Heap :=
  match cs with
  | [] => σ
  | c :: cs' => executar_todas cs' (executar c σ)
  end.

Fixpoint todas_ok (ok : Heap → chamada → bool) (cs : list chamada) (σ : Heap)
  : bool :=
  match cs with
  | [] => true
  | c :: cs' => ok σ c && todas_ok ok cs' (executar c σ)
  end.

(** ** Consistency of the two sides of the association *)

(** [e.loja_atual] is exactly the store whose [funcionarios] holds [e]. *)
Definition consistente (σ : Heap) : Prop :=
  ∀ e s, e ∈ quadro σ s ↔ loja_de σ e = Some s.

Definition sem_repeticao (σ : Heap) : Prop :=
  ∀ s, NoDup (quadro σ s).

(** Every reference kept in a list of a store names a live object. *)
Definition fechado (σ : Heap) : Prop :=
  ∀ s, (∀ e, e ∈ quadro σ s → is_Some (pessoal σ !! e)) ∧
       (∀ i, i ∈ estoque_de σ s → is_Some (instrumentos σ !! i)).

(** The invariant kept by disciplined programs. *)
Definition invariante (σ : Heap) : Prop :=
  consistente σ ∧ sem_repeticao σ.

(** The half of consistency that every program keeps. *)
Definition semi_consistente (σ : Heap) : Prop :=
  ∀ e s, loja_de σ e = Some s → e ∈ quadro σ s.

(** ** What the two queries are expected to compute *)

(** The [isinstance] tests of [consultar_instrumentos]. *)
Definition e_baixo (ins : instancia) : bool :=
  match ins with DaClasse (Baixo _ _ _ _ _) => true | _ => false end.
Definition e_guitarra (ins : instancia) : bool :=
  match ins with DaClasse (Guitarra _ _ _ _ _) => true | _ => false end.
Definition e_violao (ins : instancia) : bool :=
  match ins with DaClasse (Violao _ _ _ _ _) => true | _ => false end.


(** Number of items of [l] that are instruments passing the test [p]. *)
Definition quantos (p : instancia → bool) (σ : Heap) (l : list instr_ref)
  : nat :=
  length (filter (λ i, from_option p false (instrumentos σ !! i) = true) l).

(** The [cargo] attributes along a list of employees. *)
Definition cargos_de (σ : Heap) (l : list func_ref) : list string :=
  omap (λ e, cargo <$> pessoal σ !! e) l.

(** The distinct items of [l] in the order of their first occurrence. *)
Fixpoint primeiros (l : list string) : list string :=
  match l with
  | [] => []
  | x :: l' => x :: filter (λ y, y ≠ x) (primeiros l')
  end.

Definition vezes (k : string) (l : list string) : nat :=
  length (filter (λ y, y = k) l).

(** Each distinct role once, in first-occurrence order, with the number of
    its occurrences. *)
Definition contagem (l : list string) : dict :=
  (λ k, (k, Z.of_nat (vezes k l))) <$> primeiros l.

(** Sample heaps used to exercise the statements below. *)
Definition programa_duas_lojas : list chamada :=
  [ NovaLoja "São Paulo"; NovaLoja "Rio de Janeiro";
    NovoFuncionario "Pinho" "123.456.789-00" 2500%float "Vendedor";
    NovoFuncionario "Padre Kelmon" "987.654.321-00" 3000%float "Gerente";
    NovoInstrumento (Baixo "Fender" "Jazz Bass" 5000%float 4 false);
    NovoInstrumento (Guitarra "Gibson" "Les Paul" 7000%float 6 "Humbucker");
    AdicionarFuncionario 0 0; AdicionarFuncionario 0 1;
    AdicionarInstrumento 0 0; AdicionarInstrumento 0 1 ].

Definition heap_duas_lojas : Heap := executar_todas programa_duas_lojas heap_vazio.

(** One store, one employee added to it twice. *)
Definition programa_repetido : list chamada :=
  [ NovaLoja "Xique-Xique";
    NovoFuncionario "Tokar" "456.789.123-00" 2000%float "Caixa";
    AdicionarFuncionario 0 0; AdicionarFuncionario 0 0 ].

Definition heap_repetido : Heap := executar_todas programa_repetido heap_vazio.

(** Store 0 of [heap_duas_lojas]. *)
Definition loja_sp : Loja := mkLoja "São Paulo" [0; 1]%nat [0; 1]%nat None.

(** Two stores and one employee, added to the first store. *)
Definition programa_um_funcionario : list chamada :=
  [ NovaLoja "São Paulo"; NovaLoja "Rio de Janeiro";
    NovoFuncionario "Pinho" "123.456.789-00" 2500%float "Vendedor";
    AdicionarFuncionario 0 0 ].

Definition heap_um_funcionario : Heap :=
  executar_todas programa_um_funcionario heap_vazio.

(** ** [info] *)

(** The f-strings of the three [info] methods; [pretty] renders an [int]
    as [str] does: decimal digits, with a leading minus sign when
    negative. *)
Definition info (ins : Instrumento) : string :=
  match ins with
  | Baixo marca modelo _ num_cordas fretless =>
      "Baixo " +:+ marca +:+ " " +:+ modelo +:+ ", " +:+ pretty num_cordas
        +:+ " cordas, " +:+ (if fretless then "fretless" else "com trastes")
  | Guitarra marca modelo _ num_cordas tipo_captador =>
      "Guitarra " +:+ marca +:+ " " +:+ modelo +:+ ", " +:+ pretty num_cordas
        +:+ " cordas, captador " +:+ tipo_captador
  | Violao marca modelo _ num_cordas tipo_corpo =>
      "Violão " +:+ marca +:+ " " +:+ modelo +:+ ", " +:+ pretty num_cordas
        +:+ " cordas, corpo " +:+ tipo_corpo
  end.

(** A heap that method calls alone do not produce: the attribute
    [loja_atual] of the employee was assigned directly, so it names a store
    whose list does not hold the employee. *)
Definition heap_atribuido : Heap :=
  mkHeap {[ 0%nat := mkLoja "São Paulo" [] [] None;
            1%nat := mkLoja "Rio de Janeiro" [] [] None ]}
         {[ 0%nat := mkFuncionario "Tokar" "456.789.123-00" 2000%float "Caixa"
                                   (Some 0%nat) ]}
         ∅.

(** Store 0 and store 1 hold the same two employees and the same two
    instruments, in opposite orders. *)
Definition heap_espelhado : Heap :=
  executar_todas
    [ AdicionarFuncionario 1 1; AdicionarFuncionario 1 0;
      AdicionarInstrumento 1 1; AdicionarInstrumento 1 0 ]
    heap_duas_lojas.

Definition loja_rj_espelhada : Loja :=
  mkLoja "Rio de Janeiro" [1; 0]%nat [1; 0]%nat None.

(** ** What a statement leaves alone *)

(** Stocks and instrument objects are the same in both heaps. *)
Definition mesmo_estoque (σ σ' : Heap) : Prop :=
  (∀ s, estoque_de σ' s = estoque_de σ s) ∧ instrumentos σ' = instrumentos σ.

(** The attributes of an employee that are set by the constructor only. *)
Definition dados (F : Funcionario) : string * string * float * string :=
  (nome_completo F, cpf F, salario F, cargo F).

(** Every object of [σ] is still an object of [σ']: employees with the
    same personal data, stores with the same location and nearest store,
    instruments unchanged. *)
Definition conserva (σ σ' : Heap) : Prop :=
  (∀ e F, pessoal σ !! e = Some F →
          ∃ F', pessoal σ' !! e = Some F' ∧ dados F' = dados F) ∧
  (∀ s L, lojas σ !! s = Some L →
          ∃ L', lojas σ' !! s = Some L' ∧
                localizacao L' = localizacao L ∧
                loja_mais_proxima L' = loja_mais_proxima L) ∧
  (∀ i ins, instrumentos σ !! i = Some ins → instrumentos σ' !! i = Some ins).

(** The statements that call a constructor or a method. *)
Definition chama_metodo (c : chamada) : bool :=
  match c with
  | DefinirLojaMaisProxima _ _ => false
  | _ => true
  end.

(** The test on two descriptions that [info] is shown to pass: same
    class, and for two basses the same [fretless] flag. *)
Definition mesma_classe (ins1 ins2 : Instrumento) : Prop :=
  match ins1, ins2 with
  | Baixo _ _ _ _ f1, Baixo _ _ _ _ f2 => f1 = f2
  | Guitarra _ _ _ _ _, Guitarra _ _ _ _ _ => True
  | Violao _ _ _ _ _, Violao _ _ _ _ _ => True
  | _, _ => False
  end.

(** ** [main] *)

(** [for k, v in d.items(): print(f"{k}: {v}")], one item per [print]. *)
Definition linhas (d : dict) : list string :=
  (λ kv, kv.1 +:+ ": " +:+ pretty kv.2) <$> d.

(** The two reports [main] prints for store [s]; the title of the second
    starts with the newline of its literal. *)
Definition relatorio (s : loja_ref) : M (list string) :=
  d1 ← consultar_instrumentos s;
  d2 ← consultar_funcionarios_por_cargo s;
  mret (["Instrumentos disponíveis na loja 1:"] ++ linhas d1 ++
        [String "010"%char "Funcionários na loja 1 por cargo:"] ++ linhas d2).

(** [main], returning the arguments of its [print] calls in order. *)
Definition main : M (list string) :=
  loja1 ← nova_loja "São Paulo";
  loja2 ← nova_loja "Rio de Janeiro";
  loja3 ← nova_loja "Xique-Xique";
  alterar_loja (com_loja_mais_proxima (Some loja2)) loja1;;
  alterar_loja (com_loja_mais_proxima (Some loja3)) loja2;;
  alterar_loja (com_loja_mais_proxima (Some loja1)) loja3;;
  func1 ← novo_funcionario "Pinho" "123.456.789-00" 2500%float "Vendedor";
  func2 ← novo_funcionario "Padre Kelmon" "987.654.321-00" 3000%float "Gerente";
  func3 ← novo_funcionario "Tokar" "456.789.123-00" 2000%float "Caixa";
  adicionar_funcionario loja1 func1;;
  adicionar_funcionario loja1 func2;;
  adicionar_funcionario loja2 func3;;
  baixo1 ← novo_instrumento (Baixo "Fender" "Jazz Bass" 5000%float 4 false);
  guitarra1 ← novo_instrumento
                (Guitarra "Gibson" "Les Paul" 7000%float 6 "Humbucker");
  violao1 ← novo_instrumento (Violao "Yamaha" "C40" 800%float 6 "Clássico");
  adicionar_instrumento loja1 baixo1;;
  adicionar_instrumento loja1 guitarra1;;
  adicionar_instrumento loja2 violao1;;
  antes ← relatorio loja1;
  remover_funcionario loja1 func2;;
  adicionar_funcionario loja2 func2;;
  remover_instrumento loja1 baixo1;;
  depois ← relatorio loja1;
  mret (antes ++ [String "010"%char "Após mudanças:"] ++ depois).

(** A store that stocks one instance of a subclass of [Instrumento] other
    than the three of the program. *)
Definition programa_outra_subclasse : list chamada :=
  [ NovaLoja "Xique-Xique"; NovaDeOutraSubclasse; AdicionarInstrumento 0 0 ].

Definition heap_outra_subclasse : Heap :=
  executar_todas programa_outra_subclasse heap_vazio.
(** ** Lemmas on the monad and on [list.remove] *)

Lemma bind_ret {A B} (m : M A) (k : A → M B) σ a σ' :
  m σ = (Ret a, σ') → (m ≫= k) σ = k a σ'.
Proof. intros H. unfold mbind, M_bind, bind. by rewrite H. Qed.

Lemma bind_raise {A B} (m : M A) (k : A → M B) σ x σ' :
  m σ = (Raise x, σ') → (m ≫= k) σ = (Raise x, σ').
Proof. intros H. unfold mbind, M_bind, bind. by rewrite H. Qed.

Lemma ocorrencias_app x l1 l2 :
  ocorrencias x (l1 ++ l2) = (ocorrencias x l1 + ocorrencias x l2)%nat.
Proof. unfold ocorrencias. by rewrite filter_app, length_app. Qed.

Lemma ocorrencias_cons x y l :
  ocorrencias x (y :: l) =
  if decide (y = x) then S (ocorrencias x l) else ocorrencias x l.
Proof.
  unfold ocorrencias. rewrite filter_cons. by case_decide.
Qed.

Lemma ocorrencias_zero x l : ocorrencias x l = 0%nat ↔ x ∉ l.
Proof.
  induction l as [|y l IH]; [by split; [intros _; apply not_elem_of_nil|]|].
  rewrite ocorrencias_cons, not_elem_of_cons. case_decide; subst.
  - split; [discriminate | intros []; congruence].
  - rewrite IH. naive_solver.
Qed.

Lemma py_remove_None x l : py_remove x l = None ↔ x ∉ l.
Proof.
  induction l as [|y l IH]; simpl.
  - split; [intros _; apply not_elem_of_nil | done].
  - rewrite not_elem_of_cons. case_decide.
    + split; [discriminate | intros []; congruence].
    + rewrite fmap_None, IH. naive_solver.
Qed.

Lemma py_remove_Some x l :
  x ∈ l → ∃ l1 l2, l = l1 ++ x :: l2 ∧ (x ∉ l1) ∧ (py_remove x l = Some (l1 ++ l2)).
Proof.
  induction l as [|y l IH]; [by intros ?%elem_of_nil|].
  intros Hin. simpl. case_decide as Hxy.
  - subst. exists [], l. split_and!; [done | apply not_elem_of_nil | done].
  - apply elem_of_cons in Hin as [? | Hin]; [done|].
    destruct (IH Hin) as (l1 & l2 & -> & Hl1 & ->).
    exists (y :: l1), l2. split_and!; [done | | done].
    rewrite not_elem_of_cons. done.
Qed.

Lemma py_remove_ocorrencias x l l' :
  py_remove x l = Some l' → S (ocorrencias x l') = ocorrencias x l.
Proof.
  intros H. destruct (decide (x ∈ l)) as [Hin | Hin].
  - destruct (py_remove_Some x l Hin) as (l1 & l2 & -> & _ & Heq).
    rewrite Heq in H. injection H as <-.
    rewrite !ocorrencias_app, ocorrencias_cons. case_decide; [lia | done].
  - apply py_remove_None in Hin. congruence.
Qed.

Lemma py_remove_outro x y l l' :
  py_remove x l = Some l' → y ≠ x → y ∈ l' ↔ y ∈ l.
Proof.
  intros H Hne. destruct (decide (x ∈ l)) as [Hin | Hin].
  - destruct (py_remove_Some x l Hin) as (l1 & l2 & -> & _ & Heq).
    rewrite Heq in H. injection H as <-.
    rewrite !elem_of_app, elem_of_cons. naive_solver.
  - apply py_remove_None in Hin. congruence.
Qed.

Lemma py_remove_sublista x y l l' :
  py_remove x l = Some l' → y ∈ l' → y ∈ l.
Proof.
  intros H. destruct (decide (x ∈ l)) as [Hin | Hin].
  - destruct (py_remove_Some x l Hin) as (l1 & l2 & -> & _ & Heq).
    rewrite Heq in H. injection H as <-.
    rewrite !elem_of_app, elem_of_cons. naive_solver.
  - apply py_remove_None in Hin. congruence.
Qed.

Lemma py_remove_NoDup x l l' :
  py_remove x l = Some l' → NoDup l → NoDup l' ∧ x ∉ l'.
Proof.
  intros H Hnd. destruct (decide (x ∈ l)) as [Hin | Hin].
  - destruct (py_remove_Some x l Hin) as (l1 & l2 & -> & _ & Heq).
    rewrite Heq in H. injection H as <-.
    apply NoDup_app in Hnd as (H1 & H12 & H2).
    apply NoDup_cons in H2 as [Hx H2].
    split.
    + apply NoDup_app. split_and!; [done | | done].
      intros z Hz1 Hz2. apply (H12 z Hz1). by right.
    + rewrite elem_of_app. intros [Hx1 | Hx2]; [|done].
      apply (H12 x Hx1). by left.
  - apply py_remove_None in Hin. congruence.
Qed.

(** ** Reachable heaps *)

Lemma tem_loja_true σ s : tem_loja σ s = true ↔ is_Some (lojas σ !! s).
Proof. unfold tem_loja. apply bool_decide_eq_true. Qed.

Lemma tem_funcionario_true σ e :
  tem_funcionario σ e = true ↔ is_Some (pessoal σ !! e).
Proof. unfold tem_funcionario. apply bool_decide_eq_true. Qed.

Lemma tem_instrumento_true σ i :
  tem_instrumento σ i = true ↔ is_Some (instrumentos σ !! i).
Proof. unfold tem_instrumento. apply bool_decide_eq_true. Qed.

Lemma alcancavel_executar_todas ok cs σ :
  alcancavel ok σ → todas_ok ok cs σ = true →
  alcancavel ok (executar_todas cs σ).
Proof.
  revert σ. induction cs as [|c cs IH]; intros σ Hσ Hok; [done|].
  simpl in *. apply andb_true_iff in Hok as [Hc Hcs].
  apply IH; [by constructor | done].
Qed.

Lemma alcancavel_mono (ok ok' : Heap → chamada → bool) σ :
  (∀ σ0 c, ok σ0 c = true → ok' σ0 c = true) →
  alcancavel ok σ → alcancavel ok' σ.
Proof.
  intros Hok. induction 1 as [|σ c Hσ IH Hc]; constructor; auto.
Qed.

Lemma alcancavel_disciplinada_bem_tipada σ :
  alcancavel disciplinada σ → alcancavel bem_tipada σ.
Proof.
  apply alcancavel_mono. intros σ0 c Hok. unfold disciplinada in Hok.
  by apply andb_true_iff in Hok as [? _].
Qed.

(** ** The heap each method leaves *)

(** Runs a method body: unfolds the monad and resolves each heap read or
    list operation with an equation among the hypotheses. *)
Ltac executa :=
  unfold mbind, M_bind, bind, mret, M_ret, ret, raise,
    ler_loja, ler_funcionario, ler_instrumento,
    alterar_loja, alterar_funcionario;
  repeat (simpl;
          match goal with
          | H : ?x = _ |- context [match ?x with _ => _ end] => rewrite H
          end);
  simpl.

Lemma adicionar_funcionario_run σ s e L F :
  lojas σ !! s = Some L → pessoal σ !! e = Some F →
  adicionar_funcionario s e σ =
  (Ret tt, mkHeap (<[s := com_funcionarios (funcionarios L ++ [e]) L]> (lojas σ))
                  (<[e := com_loja_atual (Some s) F]> (pessoal σ))
                  (instrumentos σ)).
Proof.
  intros Hs He. unfold adicionar_funcionario. by executa.
Qed.

Lemma remover_funcionario_run σ s e L F l' :
  lojas σ !! s = Some L → pessoal σ !! e = Some F →
  py_remove e (funcionarios L) = Some l' →
  remover_funcionario s e σ =
  (Ret tt, mkHeap (<[s := com_funcionarios l' L]> (lojas σ))
                  (<[e := com_loja_atual None F]> (pessoal σ))
                  (instrumentos σ)).
Proof.
  intros Hs He Hrm. unfold remover_funcionario. by executa.
Qed.

Lemma remover_funcionario_ausente σ s e L :
  lojas σ !! s = Some L → e ∉ funcionarios L →
  remover_funcionario s e σ = (Raise ValueError, σ).
Proof.
  intros Hs Hin. apply py_remove_None in Hin.
  unfold remover_funcionario. by executa.
Qed.

Lemma remover_instrumento_ausente σ s i L :
  lojas σ !! s = Some L → i ∉ estoque L →
  remover_instrumento s i σ = (Raise ValueError, σ).
Proof.
  intros Hs Hin. apply py_remove_None in Hin.
  unfold remover_instrumento. by executa.
Qed.

Lemma quadro_lookup σ s L : lojas σ !! s = Some L → quadro σ s = funcionarios L.
Proof. intros H. unfold quadro. by rewrite H. Qed.

Lemma estoque_de_lookup σ s L : lojas σ !! s = Some L → estoque_de σ s = estoque L.
Proof. intros H. unfold estoque_de. by rewrite H. Qed.

Lemma mudar_loja_sem_loja σ e nova F L :
  pessoal σ !! e = Some F → loja_atual F = None → lojas σ !! nova = Some L →
  mudar_loja e nova σ =
  (Ret tt, mkHeap (<[nova := com_funcionarios (funcionarios L ++ [e]) L]> (lojas σ))
                  (<[e := com_loja_atual (Some nova) F]> (pessoal σ))
                  (instrumentos σ)).
Proof.
  intros He Hat Hs. unfold mudar_loja.
  rewrite (bind_ret _ _ σ F σ) by (by executa).
  rewrite Hat. rewrite (bind_ret _ _ σ tt σ) by done.
  erewrite bind_ret by (by apply adicionar_funcionario_run).
  unfold alterar_funcionario. simpl. rewrite lookup_insert_eq.
  by rewrite insert_insert_eq.
Qed.

(** ** Adding and removing employees *)

(** C7: after [s.adicionar_funcionario(e)], whatever stores [e] was in,
    [e.loja_atual] is [s] and [e] occurs in [s.funcionarios] once more
    than before (it is appended at the end). *)
Theorem adicionar_funcionario_spec σ s e L F :
  lojas σ !! s = Some L → pessoal σ !! e = Some F →
  ∃ σ', adicionar_funcionario s e σ = (Ret tt, σ') ∧
        loja_de σ' e = Some s ∧
        quadro σ' s = quadro σ s ++ [e] ∧
        ocorrencias e (quadro σ' s) = S (ocorrencias e (quadro σ s)).
Proof.
  intros Hs He. eexists. split; [by apply adicionar_funcionario_run|].
  unfold loja_de, quadro. simpl. rewrite !lookup_insert_eq, Hs. simpl.
  split_and!; [done | done |].
  rewrite ocorrencias_app, ocorrencias_cons. case_decide; [|done].
  unfold ocorrencias at 2. simpl. lia.
Qed.

Lemma adicionar_funcionario_spec_witness :
  ∃ σ', adicionar_funcionario 0 0 heap_duas_lojas = (Ret tt, σ') ∧
        loja_de σ' 0 = Some 0%nat ∧
        quadro σ' 0 = quadro heap_duas_lojas 0 ++ [0%nat] ∧
        ocorrencias 0 (quadro σ' 0) = S (ocorrencias 0 (quadro heap_duas_lojas 0)).
Proof.
  eapply (adicionar_funcionario_spec heap_duas_lojas 0 0); reflexivity.
Defined.

(** C3: removing a reference that is not in the list raises [ValueError]
    (the error of [list.remove]) to the caller, and the whole heap, hence
    every collection and every [loja_atual], is as it was before. *)
Theorem remover_ausente_sem_efeito σ s x y L :
  lojas σ !! s = Some L →
  x ∉ funcionarios L → y ∉ estoque L →
  remover_funcionario s x σ = (Raise ValueError, σ) ∧
  remover_instrumento s y σ = (Raise ValueError, σ).
Proof.
  intros Hs Hx Hy. split.
  - by eapply remover_funcionario_ausente.
  - by eapply remover_instrumento_ausente.
Qed.

Lemma remover_ausente_sem_efeito_witness :
  remover_funcionario 1 0 heap_duas_lojas = (Raise ValueError, heap_duas_lojas) ∧
  remover_instrumento 1 1 heap_duas_lojas = (Raise ValueError, heap_duas_lojas).
Proof.
  eapply (remover_ausente_sem_efeito heap_duas_lojas 1 0 1);
    [reflexivity | vm_compute; apply not_elem_of_nil ..].
Defined.

(** C10: for an employee with no store, [mudar_loja] returns normally; it
    appends the employee to the new store's list, sets [loja_atual] to the
    new store, keeps that store's stock and leaves every other store as it
    was. *)
Theorem mudar_loja_sem_loja_spec σ e nova F L :
  pessoal σ !! e = Some F → loja_atual F = None → lojas σ !! nova = Some L →
  ∃ σ', mudar_loja e nova σ = (Ret tt, σ') ∧
        quadro σ' nova = quadro σ nova ++ [e] ∧
        ocorrencias e (quadro σ' nova) = S (ocorrencias e (quadro σ nova)) ∧
        loja_de σ' e = Some nova ∧
        estoque_de σ' nova = estoque_de σ nova ∧
        ∀ s, s ≠ nova → lojas σ' !! s = lojas σ !! s.
Proof.
  intros He Hat Hs. eexists. split; [by eapply mudar_loja_sem_loja|].
  unfold loja_de, quadro, estoque_de. simpl.
  rewrite !lookup_insert_eq, Hs. simpl.
  split_and!; [done | | done | done |].
  - rewrite ocorrencias_app, ocorrencias_cons. case_decide; [|done].
    unfold ocorrencias at 2. simpl. lia.
  - intros s' Hne. by rewrite lookup_insert_ne.
Qed.

Lemma mudar_loja_sem_loja_spec_witness :
  let σ := executar (NovoFuncionario "Tokar" "456.789.123-00" 2000%float "Caixa")
                    heap_duas_lojas in
  ∃ σ', mudar_loja 2 1 σ = (Ret tt, σ') ∧
        quadro σ' 1 = quadro σ 1 ++ [2%nat] ∧
        ocorrencias 2 (quadro σ' 1) = S (ocorrencias 2 (quadro σ 1)) ∧
        loja_de σ' 2 = Some 1%nat ∧
        estoque_de σ' 1 = estoque_de σ 1 ∧
        ∀ s, s ≠ 1%nat → lojas σ' !! s = lojas σ !! s.
Proof.
  intros σ. eapply (mudar_loja_sem_loja_spec σ 2 1); reflexivity.
Defined.

(** ** Effects of the two list updates on what callers observe *)

Lemma adicionar_funcionario_obs σ σ' s e r :
  adicionar_funcionario s e σ = (Ret r, σ') →
  (∀ s', quadro σ' s' = if decide (s' = s) then quadro σ s ++ [e] else quadro σ s') ∧
  (∀ e', loja_de σ' e' = if decide (e' = e) then Some s else loja_de σ e').
Proof.
  unfold adicionar_funcionario. executa.
  destruct (lojas σ !! s) as [L|] eqn:Hs; [|discriminate]. simpl.
  destruct (pessoal σ !! e) as [F|] eqn:He; [|discriminate].
  intros [= _ <-]. unfold quadro, loja_de. simpl. split.
  - intros s'. rewrite lookup_insert. case_decide; subst.
    + rewrite decide_True by done. by rewrite Hs.
    + by rewrite decide_False by done.
  - intros e'. rewrite lookup_insert. case_decide; subst.
    + by rewrite decide_True by done.
    + by rewrite decide_False by done.
Qed.

Lemma remover_funcionario_obs σ σ' s e r :
  remover_funcionario s e σ = (Ret r, σ') →
  ∃ l', py_remove e (quadro σ s) = Some l' ∧
    (∀ s', quadro σ' s' = if decide (s' = s) then l' else quadro σ s') ∧
    (∀ e', loja_de σ' e' = if decide (e' = e) then None else loja_de σ e').
Proof.
  unfold remover_funcionario. executa.
  destruct (lojas σ !! s) as [L|] eqn:Hs; [|discriminate]. simpl.
  destruct (py_remove e (funcionarios L)) as [l'|] eqn:Hrm; [|discriminate].
  executa.
  destruct (pessoal σ !! e) as [F|] eqn:He; [|discriminate].
  intros [= _ <-]. exists l'. unfold quadro, loja_de. simpl. split_and!.
  - by rewrite Hs.
  - intros s'. rewrite lookup_insert. case_decide; subst.
    + by rewrite decide_True by done.
    + by rewrite decide_False by done.
  - intros e'. rewrite lookup_insert. case_decide; subst.
    + by rewrite decide_True by done.
    + by rewrite decide_False by done.
Qed.

Lemma mudar_loja_com_loja σ e old nova F Lo Ln :
  pessoal σ !! e = Some F → loja_atual F = Some old →
  lojas σ !! old = Some Lo → e ∈ funcionarios Lo →
  lojas σ !! nova = Some Ln →
  ∃ σ1 σ2,
    remover_funcionario old e σ = (Ret tt, σ1) ∧
    adicionar_funcionario nova e σ1 = (Ret tt, σ2) ∧
    mudar_loja e nova σ = (Ret tt, σ2).
Proof.
  intros He Hat Ho Hin Hn.
  destruct (py_remove_Some e _ Hin) as (l1 & l2 & Hl & _ & Hrm).
  pose proof (remover_funcionario_run σ old e Lo F _ Ho He Hrm) as H1.
  set (σ1 := mkHeap _ _ _) in H1.
  assert (∃ Ln', lojas σ1 !! nova = Some Ln') as [Ln' Hn'].
  { unfold σ1. simpl. rewrite lookup_insert. case_decide; eauto. }
  assert (pessoal σ1 !! e = Some (com_loja_atual None F)) as He'.
  { unfold σ1. simpl. by rewrite lookup_insert_eq. }
  pose proof (adicionar_funcionario_run σ1 nova e _ _ Hn' He') as H2.
  set (σ2 := mkHeap _ _ _) in H2.
  exists σ1, σ2. split_and!; [done | done |].
  unfold mudar_loja.
  rewrite (bind_ret _ _ σ F σ) by (by executa).
  rewrite Hat.
  rewrite (bind_ret _ _ σ tt σ1) by done.
  rewrite (bind_ret _ _ σ1 tt σ2) by done.
  unfold alterar_funcionario, σ2. simpl. rewrite lookup_insert_eq.
  by rewrite insert_insert_eq.
Qed.

(** C2 (as stated, refuted): an employee added twice to a store is still
    in that store's list after [remover_funcionario]. *)
Lemma remover_funcionario_deixa_repetido :
  alcancavel bem_tipada heap_repetido ∧
  0%nat ∈ quadro heap_repetido 0 ∧
  ∃ σ', remover_funcionario 0 0 heap_repetido = (Ret tt, σ') ∧
        0%nat ∈ quadro σ' 0.
Proof.
  split.
  { apply alcancavel_executar_todas; [constructor | vm_compute; reflexivity]. }
  split; [vm_compute; apply list_elem_of_here|].
  eexists. split; [vm_compute; reflexivity|].
  vm_compute. apply list_elem_of_here.
Qed.

(** C2 (amended): for [e] present in [s.funcionarios],
    [s.remover_funcionario(e)] returns normally, sets [e.loja_atual] to
    [None] and deletes the first occurrence of [e] from the list, so [e]
    occurs once less; the list no longer holds [e] when it held it once. *)
Theorem remover_funcionario_spec σ s e L F :
  lojas σ !! s = Some L → pessoal σ !! e = Some F → e ∈ funcionarios L →
  ∃ σ' l1 l2,
    remover_funcionario s e σ = (Ret tt, σ') ∧
    loja_de σ' e = None ∧
    quadro σ s = l1 ++ e :: l2 ∧ (e ∉ l1) ∧ quadro σ' s = l1 ++ l2 ∧
    S (ocorrencias e (quadro σ' s)) = ocorrencias e (quadro σ s) ∧
    (ocorrencias e (quadro σ s) = 1%nat → e ∉ quadro σ' s).
Proof.
  intros Hs He Hin.
  destruct (py_remove_Some e _ Hin) as (l1 & l2 & Hl & Hl1 & Hrm).
  pose proof (remover_funcionario_run σ s e L F _ Hs He Hrm) as Hrun.
  eexists _, l1, l2. split; [exact Hrun|].
  destruct (remover_funcionario_obs _ _ _ _ _ Hrun) as (l' & Hrm' & Hq & Hl').
  rewrite (quadro_lookup _ _ _ Hs) in *.
  assert (l' = l1 ++ l2) as -> by congruence.
  rewrite Hq, Hl', !decide_True by done.
  apply py_remove_ocorrencias in Hrm.
  split_and!; [done | done | done | done | done |].
  intros H1. apply ocorrencias_zero. lia.
Qed.

Lemma remover_funcionario_spec_witness :
  ∃ σ' l1 l2,
    remover_funcionario 0 1 heap_duas_lojas = (Ret tt, σ') ∧
    loja_de σ' 1 = None ∧
    quadro heap_duas_lojas 0 = l1 ++ 1%nat :: l2 ∧ (1%nat ∉ l1) ∧
    quadro σ' 0 = l1 ++ l2 ∧
    S (ocorrencias 1 (quadro σ' 0)) = ocorrencias 1 (quadro heap_duas_lojas 0) ∧
    (ocorrencias 1 (quadro heap_duas_lojas 0) = 1%nat → 1%nat ∉ quadro σ' 0).
Proof.
  eapply (remover_funcionario_spec heap_duas_lojas 0 1);
    [reflexivity | reflexivity |].
  vm_compute. apply list_elem_of_further, list_elem_of_here.
Defined.

(** ** Transfers *)

(** C4 (as stated, refuted): a transfer to the store the employee is
    already in leaves the employee in the old store's list; and in a
    transfer from store 0 to store 1 the heap between the removal and the
    append has the employee in the list of neither store. *)
Lemma mudar_loja_contraexemplo :
  alcancavel disciplinada heap_duas_lojas ∧
  loja_de heap_duas_lojas 0 = Some 0%nat ∧
  0%nat ∈ quadro heap_duas_lojas 0 ∧
  (∃ σ', mudar_loja 0 0 heap_duas_lojas = (Ret tt, σ') ∧ 0%nat ∈ quadro σ' 0) ∧
  (∃ σ1, remover_funcionario 0 0 heap_duas_lojas = (Ret tt, σ1) ∧
         mudar_loja 0 1 heap_duas_lojas =
           (adicionar_funcionario 1 0;;
            alterar_funcionario (com_loja_atual (Some 1%nat)) 0) σ1 ∧
         quadro σ1 0 = [1%nat] ∧ quadro σ1 1 = []).
Proof.
  split_and!.
  - apply alcancavel_executar_todas; [constructor | vm_compute; reflexivity].
  - reflexivity.
  - vm_compute. apply list_elem_of_here.
  - eexists. split; [vm_compute; reflexivity|].
    vm_compute. apply list_elem_of_further, list_elem_of_here.
  - eexists. split; [vm_compute; reflexivity|].
    split_and!; vm_compute; reflexivity.
Qed.

(** C4 (amended): for [e] with [loja_atual = old], present in [old]'s
    list, [e.mudar_loja(nova)] returns normally with the final heap of
    [old.remover_funcionario(e)] followed by [nova.adicionar_funcionario(e)].
    Afterwards [e.loja_atual] is [nova] and [e] is in [nova]'s list.  When
    [nova] differs from [old], [e] occurs once less in [old]'s list, hence
    not at all if it occurred once; when [nova] is [old], [e] stays in it.
    If before the call [e] is in [old]'s list once and in no other list,
    then after the call it is in [nova]'s list once and in no other, while
    in the heap between the two statements it is in no list at all. *)
Theorem mudar_loja_spec σ e old nova F Lo Ln :
  pessoal σ !! e = Some F → loja_atual F = Some old →
  lojas σ !! old = Some Lo → e ∈ funcionarios Lo →
  lojas σ !! nova = Some Ln →
  ∃ σ1 σ2,
    remover_funcionario old e σ = (Ret tt, σ1) ∧
    adicionar_funcionario nova e σ1 = (Ret tt, σ2) ∧
    mudar_loja e nova σ = (Ret tt, σ2) ∧
    loja_de σ2 e = Some nova ∧
    e ∈ quadro σ2 nova ∧
    (nova ≠ old →
       S (ocorrencias e (quadro σ2 old)) = ocorrencias e (quadro σ old) ∧
       (ocorrencias e (quadro σ old) = 1%nat → e ∉ quadro σ2 old)) ∧
    (nova = old → ocorrencias e (quadro σ2 old) = ocorrencias e (quadro σ old)) ∧
    (ocorrencias e (quadro σ old) = 1%nat →
     (∀ s, e ∈ quadro σ s → s = old) →
       (∀ s, e ∉ quadro σ1 s) ∧
       (∀ s, e ∈ quadro σ2 s ↔ s = nova) ∧
       ocorrencias e (quadro σ2 nova) = 1%nat).
Proof.
  intros He Hat Ho Hin Hn.
  destruct (mudar_loja_com_loja σ e old nova F Lo Ln He Hat Ho Hin Hn)
    as (σ1 & σ2 & H1 & H2 & H12).
  exists σ1, σ2. split_and!; [done | done | done | ..].
  all: destruct (remover_funcionario_obs _ _ _ _ _ H1) as (l' & Hrm & Hq1 & Hl1).
  all: destruct (adicionar_funcionario_obs _ _ _ _ _ H2) as (Hq2 & Hl2).
  all: pose proof (py_remove_ocorrencias _ _ _ Hrm) as Hocc.
  - by rewrite Hl2, decide_True.
  - rewrite Hq2, decide_True by done. apply elem_of_app. right.
    apply list_elem_of_here.
  - intros Hne. rewrite Hq2, decide_False by done.
    rewrite Hq1, decide_True by done. split; [done|].
    intros H. apply ocorrencias_zero. lia.
  - intros ->. rewrite Hq2, decide_True by done.
    rewrite Hq1, decide_True by done.
    rewrite ocorrencias_app, ocorrencias_cons, decide_True by done.
    unfold ocorrencias at 2. simpl. lia.
  - intros Hum Hso.
    assert (∀ s, e ∉ quadro σ1 s) as Hz.
    { intros s. rewrite Hq1. case_decide; subst.
      - apply ocorrencias_zero. lia.
      - intros Hs. by apply Hso in Hs. }
    split_and!; [done | |].
    + intros s. rewrite Hq2. case_decide; subst.
      * split; [done|]. intros _. apply elem_of_app. right.
        apply list_elem_of_here.
      * split; [|done]. intros Hs. by apply Hz in Hs.
    + rewrite Hq2, decide_True by done.
      rewrite ocorrencias_app, ocorrencias_cons, decide_True by done.
      pose proof (Hz nova) as Hzn. apply ocorrencias_zero in Hzn.
      rewrite Hzn. reflexivity.
Qed.

(** ** The two queries *)

Lemma dict_incr_heap k d σ : (dict_incr k d σ).2 = σ.
Proof. unfold dict_incr. by destruct (dict_get k d). Qed.

Lemma contar_tipo_heap i d σ : (contar_tipo i d σ).2 = σ.
Proof.
  unfold contar_tipo. executa.
  destruct (instrumentos σ !! i) as [[[]|]|]; simpl; auto using dict_incr_heap.
Qed.

Lemma contar_cargo_heap e d σ : (contar_cargo e d σ).2 = σ.
Proof.
  unfold contar_cargo. executa.
  destruct (pessoal σ !! e) as [F|]; simpl; [|done].
  destruct (dict_in (cargo F) d); auto using dict_incr_heap.
Qed.

Lemma for_each_heap {A S} (body : A → S → M S) l acc σ :
  (∀ x a σ0, (body x a σ0).2 = σ0) → (for_each body l acc σ).2 = σ.
Proof.
  intros Hb. revert acc. induction l as [|x l IH]; intros acc; simpl; [done|].
  unfold mbind, M_bind, bind. specialize (Hb x acc σ).
  destruct (body x acc σ) as [[a|ex] σ0]; simpl in *; subst; [apply IH | done].
Qed.

Lemma consultar_instrumentos_heap s σ : (consultar_instrumentos s σ).2 = σ.
Proof.
  unfold consultar_instrumentos. executa.
  destruct (lojas σ !! s); simpl; [|done].
  apply for_each_heap, contar_tipo_heap.
Qed.

Lemma consultar_funcionarios_por_cargo_heap s σ :
  (consultar_funcionarios_por_cargo s σ).2 = σ.
Proof.
  unfold consultar_funcionarios_por_cargo. executa.
  destruct (lojas σ !! s); simpl; [|done].
  apply for_each_heap, contar_cargo_heap.
Qed.

(** C9: both queries leave the heap, hence every attribute of every
    store and employee, as it was, and asking again on the heap a query
    leaves gives the same outcome. *)
Theorem consultas_sem_efeito σ s :
  (consultar_instrumentos s σ).2 = σ ∧
  (consultar_funcionarios_por_cargo s σ).2 = σ ∧
  consultar_instrumentos s (consultar_instrumentos s σ).2 =
    consultar_instrumentos s σ ∧
  consultar_funcionarios_por_cargo s (consultar_funcionarios_por_cargo s σ).2 =
    consultar_funcionarios_por_cargo s σ.
Proof.
  split_and!.
  - apply consultar_instrumentos_heap.
  - apply consultar_funcionarios_por_cargo_heap.
  - by rewrite consultar_instrumentos_heap.
  - by rewrite consultar_funcionarios_por_cargo_heap.
Qed.

Lemma quantos_cons p σ i l :
  quantos p σ (i :: l) =
  ((if from_option p false (instrumentos σ !! i) then 1 else 0) + quantos p σ l)%nat.
Proof.
  unfold quantos. rewrite filter_cons.
  destruct (from_option p false (instrumentos σ !! i)); by case_decide.
Qed.

Lemma contar_tipo_run σ i ins a b c :
  instrumentos σ !! i = Some ins →
  contar_tipo i [("Baixo", a); ("Guitarra", b); ("Violão", c)] σ =
  (Ret [("Baixo", a + (if e_baixo ins then 1 else 0));
        ("Guitarra", b + (if e_guitarra ins then 1 else 0));
        ("Violão", c + (if e_violao ins then 1 else 0))], σ).
Proof.
  intros Hi. unfold contar_tipo. executa.
  destruct ins as [[]|]; vm_compute dict_incr; simpl; by rewrite !Z.add_0_r.
Qed.

Lemma for_each_contar_tipo σ l a b c :
  (∀ i, i ∈ l → is_Some (instrumentos σ !! i)) →
  for_each contar_tipo l [("Baixo", a); ("Guitarra", b); ("Violão", c)] σ =
  (Ret [("Baixo", a + Z.of_nat (quantos e_baixo σ l));
        ("Guitarra", b + Z.of_nat (quantos e_guitarra σ l));
        ("Violão", c + Z.of_nat (quantos e_violao σ l))], σ).
Proof.
  revert a b c. induction l as [|i l IH]; intros a b c Hl.
  - simpl. unfold mret, M_ret, ret, quantos. simpl. by rewrite !Z.add_0_r.
  - destruct (Hl i) as [ins Hi]; [apply list_elem_of_here|].
    assert (∀ j, j ∈ l → is_Some (instrumentos σ !! j)) as Hl'.
    { intros j Hj. apply Hl. by apply list_elem_of_further. }
    rewrite !quantos_cons, Hi. cbn [for_each].
    erewrite bind_ret by (by apply contar_tipo_run).
    rewrite IH by done.
    destruct ins as [[]|]; cbn [from_option e_baixo e_guitarra e_violao];
      repeat (f_equal; try lia).
Qed.



Lemma consultar_instrumentos_run σ s L :
  lojas σ !! s = Some L →
  (∀ i, i ∈ estoque L → is_Some (instrumentos σ !! i)) →
  consultar_instrumentos s σ =
  (Ret [("Baixo", Z.of_nat (quantos e_baixo σ (estoque L)));
        ("Guitarra", Z.of_nat (quantos e_guitarra σ (estoque L)));
        ("Violão", Z.of_nat (quantos e_violao σ (estoque L)))], σ).
Proof.
  intros Hs Hl. unfold consultar_instrumentos.
  erewrite bind_ret by (by executa).
  by rewrite for_each_contar_tipo.
Qed.



Lemma heap_duas_lojas_fechado_0 :
  (∀ e, e ∈ funcionarios loja_sp → is_Some (pessoal heap_duas_lojas !! e)) ∧
  (∀ i, i ∈ estoque loja_sp → is_Some (instrumentos heap_duas_lojas !! i)).
Proof.
  split; intros x Hx.
  - apply elem_of_cons in Hx as [-> | Hx]; [by eexists|].
    apply elem_of_cons in Hx as [-> | Hx]; [by eexists|].
    by apply elem_of_nil in Hx.
  - apply elem_of_cons in Hx as [-> | Hx]; [by eexists|].
    apply elem_of_cons in Hx as [-> | Hx]; [by eexists|].
    by apply elem_of_nil in Hx.
Defined.


(** *** First occurrences and counts of roles *)

Lemma primeiros_elem x l : x ∈ primeiros l ↔ x ∈ l.
Proof.
  induction l as [|y l IH]; simpl; [done|].
  rewrite !elem_of_cons, list_elem_of_filter, IH.
  destruct (decide (x = y)); naive_solver.
Qed.

Lemma primeiros_NoDup l : NoDup (primeiros l).
Proof.
  induction l as [|y l IH]; simpl; [constructor|].
  apply NoDup_cons. split; [|by apply NoDup_filter].
  rewrite list_elem_of_filter. naive_solver.
Qed.

Lemma primeiros_snoc p c :
  primeiros (p ++ [c]) = if decide (c ∈ p) then primeiros p else primeiros p ++ [c].
Proof.
  induction p as [|x p IH].
  - reflexivity.
  - cbn [app primeiros]. rewrite IH. destruct (decide (c = x)) as [-> | Hne].
    + destruct (decide (x ∈ x :: p)) as [_ | Hn];
        [| exfalso; apply Hn, list_elem_of_here].
      case_decide; [done|].
      rewrite filter_app, filter_cons_False, filter_nil by naive_solver.
      by rewrite app_nil_r.
    + destruct (decide (c ∈ p)) as [Hin | Hin];
        destruct (decide (c ∈ x :: p)) as [Hin' | Hin'].
      * done.
      * exfalso. apply Hin'. by apply list_elem_of_further.
      * apply elem_of_cons in Hin' as [? | ?]; done.
      * rewrite filter_app, filter_cons_True, filter_nil by done. done.
Qed.

Lemma vezes_snoc k p c :
  vezes k (p ++ [c]) = (vezes k p + if decide (c = k) then 1 else 0)%nat.
Proof.
  unfold vezes. rewrite filter_app, length_app, filter_cons, filter_nil.
  by case_decide.
Qed.

Lemma vezes_zero k l : vezes k l = 0%nat ↔ k ∉ l.
Proof.
  unfold vezes. induction l as [|y l IH]; simpl.
  - split; [intros _; apply not_elem_of_nil | done].
  - rewrite filter_cons, not_elem_of_cons. case_decide; subst; simpl.
    + split; [discriminate | intros []; congruence].
    + rewrite IH. naive_solver.
Qed.

(** *** Dicts built as a table over a list of distinct keys *)

Lemma dict_get_tabela (f : string → Z) ks k :
  dict_get k ((λ x, (x, f x)) <$> ks) =
  if decide (k ∈ ks) then Some (f k) else None.
Proof.
  induction ks as [|x ks IH]; [reflexivity|].
  cbn [fmap list_fmap dict_get]. fold (fmap (M:=list) (λ x, (x, f x)) ks).
  rewrite IH.
  destruct (decide (k ∈ ks)) as [Hin | Hin];
    destruct (decide (k ∈ x :: ks)) as [Hin' | Hin'];
    destruct (decide (k = x)) as [Heq | Hne]; subst; try done.
  - exfalso. apply Hin'. by apply list_elem_of_further.
  - exfalso. apply Hin'. by apply list_elem_of_further.
  - apply elem_of_cons in Hin' as [? | ?]; done.
  - exfalso. apply Hin', list_elem_of_here.
Qed.

Lemma dict_set_tabela_novo (f : string → Z) ks k v :
  k ∉ ks →
  dict_set k v ((λ x, (x, f x)) <$> ks) = ((λ x, (x, f x)) <$> ks) ++ [(k, v)].
Proof.
  induction ks as [|x ks IH]; csimpl; [done|].
  rewrite not_elem_of_cons. intros [Hne Hin].
  rewrite decide_False by done. by rewrite IH.
Qed.

Lemma dict_set_tabela_velho (f g : string → Z) ks k v :
  NoDup ks → k ∈ ks → g k = v → (∀ x, x ≠ k → g x = f x) →
  dict_set k v ((λ x, (x, f x)) <$> ks) = (λ x, (x, g x)) <$> ks.
Proof.
  intros Hnd Hin Hk Hg. induction ks as [|x ks IH]; csimpl.
  - by apply elem_of_nil in Hin.
  - apply NoDup_cons in Hnd as [Hx Hnd].
    destruct (decide (k = x)) as [-> | Hne].
    + rewrite Hk. f_equal. apply list_fmap_ext. intros i y Hy.
      rewrite Hg; [done|]. intros ->. apply Hx.
      by apply list_elem_of_lookup_2 in Hy.
    + rewrite Hg by done. f_equal. apply IH; [done|].
      apply elem_of_cons in Hin as [? | ?]; done.
Qed.

Lemma soma_valores_app d1 d2 :
  soma_valores (d1 ++ d2) = soma_valores d1 + soma_valores d2.
Proof.
  unfold soma_valores. induction d1 as [|[k v] d1 IH]; simpl; [done|].
  rewrite IH. lia.
Qed.

Lemma soma_valores_dict_set k v d :
  soma_valores (dict_set k v d) =
  soma_valores d + v - default 0 (dict_get k d).
Proof.
  unfold soma_valores. induction d as [|[k' v'] d IH]; simpl; [lia|].
  case_decide; simpl; [lia|]. rewrite IH. lia.
Qed.

Lemma contagem_snoc p c :
  contagem (p ++ [c]) = dict_set c (Z.of_nat (vezes c p) + 1) (contagem p).
Proof.
  unfold contagem. rewrite primeiros_snoc. case_decide as Hin.
  - symmetry. apply dict_set_tabela_velho.
    + apply primeiros_NoDup.
    + by apply primeiros_elem.
    + rewrite vezes_snoc, decide_True by done. lia.
    + intros x Hne. rewrite vezes_snoc, decide_False by done. f_equal. lia.
  - rewrite dict_set_tabela_novo by (by rewrite primeiros_elem).
    rewrite fmap_app. simpl. f_equal.
    + apply list_fmap_ext. intros i x Hx.
      rewrite vezes_snoc, decide_False; [do 2 f_equal; lia|].
      intros ->. apply Hin, primeiros_elem.
      by apply list_elem_of_lookup_2 in Hx.
    + rewrite vezes_snoc, decide_True by done.
      apply vezes_zero in Hin. rewrite Hin. reflexivity.
Qed.

Lemma dict_get_contagem k l :
  dict_get k (contagem l) =
  if decide (k ∈ l) then Some (Z.of_nat (vezes k l)) else None.
Proof.
  unfold contagem. rewrite dict_get_tabela.
  destruct (decide (k ∈ l)) as [Hin | Hin].
  - rewrite decide_True; [done | by apply primeiros_elem].
  - rewrite decide_False; [done | by rewrite primeiros_elem].
Qed.

Lemma soma_valores_contagem l : soma_valores (contagem l) = Z.of_nat (length l).
Proof.
  induction l as [|c p IH] using rev_ind; [done|].
  rewrite contagem_snoc, soma_valores_dict_set, IH, dict_get_contagem, length_app.
  simpl. case_decide as Hin; simpl; [lia|].
  apply vezes_zero in Hin. lia.
Qed.

Lemma contar_cargo_run σ e F p :
  pessoal σ !! e = Some F →
  contar_cargo e (contagem p) σ = (Ret (contagem (p ++ [cargo F])), σ).
Proof.
  intros He. unfold contar_cargo. executa.
  rewrite contagem_snoc. unfold dict_in, dict_incr.
  rewrite dict_get_contagem. case_decide as Hin.
  - rewrite bool_decide_true by eauto. done.
  - rewrite bool_decide_false by (by intros [? ?]).
    apply vezes_zero in Hin. rewrite Hin. done.
Qed.

Lemma for_each_contar_cargo σ l p :
  (∀ e, e ∈ l → is_Some (pessoal σ !! e)) →
  for_each contar_cargo l (contagem p) σ =
  (Ret (contagem (p ++ cargos_de σ l)), σ).
Proof.
  revert p. induction l as [|e l IH]; intros p Hl.
  - simpl. by rewrite app_nil_r.
  - destruct (Hl e) as [F He]; [apply list_elem_of_here|].
    cbn [for_each]. erewrite bind_ret by (by apply contar_cargo_run).
    rewrite IH by (intros j Hj; apply Hl; by apply list_elem_of_further).
    unfold cargos_de. simpl. rewrite He. simpl. by rewrite <- app_assoc.
Qed.

Lemma cargos_de_length σ l :
  (∀ e, e ∈ l → is_Some (pessoal σ !! e)) →
  length (cargos_de σ l) = length l.
Proof.
  induction l as [|e l IH]; intros Hl; [done|].
  destruct (Hl e) as [F He]; [apply list_elem_of_here|].
  unfold cargos_de in *. simpl. rewrite He. simpl. f_equal.
  apply IH. intros j Hj. apply Hl. by apply list_elem_of_further.
Qed.

Lemma consultar_funcionarios_por_cargo_run σ s L :
  lojas σ !! s = Some L →
  (∀ e, e ∈ funcionarios L → is_Some (pessoal σ !! e)) →
  consultar_funcionarios_por_cargo s σ =
  (Ret (contagem (cargos_de σ (funcionarios L))), σ).
Proof.
  intros Hs Hl. unfold consultar_funcionarios_por_cargo.
  erewrite bind_ret by (by executa).
  exact (for_each_contar_cargo σ _ [] Hl).
Qed.

(** C6: [consultar_funcionarios_por_cargo] returns a dict whose keys are
    the distinct [cargo] strings of the store's employees, in the order in
    which a scan of [funcionarios] first meets them; each key is mapped to
    the (positive) number of employees with that role, so no absent role
    is listed, and the values add up to the number of employees. *)
Theorem consultar_funcionarios_por_cargo_spec σ s L :
  lojas σ !! s = Some L →
  (∀ e, e ∈ funcionarios L → is_Some (pessoal σ !! e)) →
  ∃ d, consultar_funcionarios_por_cargo s σ = (Ret d, σ) ∧
       chaves d = primeiros (cargos_de σ (funcionarios L)) ∧
       NoDup (chaves d) ∧
       (∀ k, k ∈ chaves d ↔ k ∈ cargos_de σ (funcionarios L)) ∧
       (∀ k, dict_get k d =
             if decide (k ∈ cargos_de σ (funcionarios L))
             then Some (Z.of_nat (vezes k (cargos_de σ (funcionarios L))))
             else None) ∧
       (∀ k v, dict_get k d = Some v → 0 < v) ∧
       length (cargos_de σ (funcionarios L)) = length (funcionarios L) ∧
       soma_valores d = Z.of_nat (length (funcionarios L)).
Proof.
  intros Hs Hl. exists (contagem (cargos_de σ (funcionarios L))).
  assert (chaves (contagem (cargos_de σ (funcionarios L))) =
          primeiros (cargos_de σ (funcionarios L))) as Hch.
  { unfold chaves, contagem. rewrite <- list_fmap_compose.
    apply list_fmap_id. }
  split_and!.
  - by apply consultar_funcionarios_por_cargo_run.
  - done.
  - rewrite Hch. apply primeiros_NoDup.
  - intros k. rewrite Hch. apply primeiros_elem.
  - intros k. apply dict_get_contagem.
  - intros k v. rewrite dict_get_contagem. case_decide as Hin; [|done].
    intros [= <-].
    destruct (vezes k (cargos_de σ (funcionarios L))) eqn:Hv; [|lia].
    by apply vezes_zero in Hv.
  - by apply cargos_de_length.
  - rewrite soma_valores_contagem. by rewrite cargos_de_length.
Qed.

Lemma consultar_funcionarios_por_cargo_spec_witness :
  ∃ d, consultar_funcionarios_por_cargo 0 heap_duas_lojas = (Ret d, heap_duas_lojas) ∧
       chaves d = primeiros (cargos_de heap_duas_lojas (funcionarios loja_sp)) ∧
       NoDup (chaves d) ∧
       (∀ k, k ∈ chaves d ↔ k ∈ cargos_de heap_duas_lojas (funcionarios loja_sp)) ∧
       (∀ k, dict_get k d =
             if decide (k ∈ cargos_de heap_duas_lojas (funcionarios loja_sp))
             then Some (Z.of_nat (vezes k (cargos_de heap_duas_lojas (funcionarios loja_sp))))
             else None) ∧
       (∀ k v, dict_get k d = Some v → 0 < v) ∧
       length (cargos_de heap_duas_lojas (funcionarios loja_sp)) =
         length (funcionarios loja_sp) ∧
       soma_valores d = Z.of_nat (length (funcionarios loja_sp)).
Proof.
  apply (consultar_funcionarios_por_cargo_spec heap_duas_lojas 0 loja_sp);
    [reflexivity | apply heap_duas_lojas_fechado_0].
Defined.

(** The scenario of [main]: store 0 stocks a bass and a guitar and employs
    a Vendedor and a Gerente. *)
Example consultas_duas_lojas :
  (consultar_instrumentos 0 heap_duas_lojas).1 =
    Ret [("Baixo", 1); ("Guitarra", 1); ("Violão", 0)] ∧
  (consultar_funcionarios_por_cargo 0 heap_duas_lojas).1 =
    Ret [("Vendedor", 1); ("Gerente", 1)].
Proof. split; vm_compute; reflexivity. Qed.

Example primeiros_exemplo :
  primeiros ["Caixa"; "Gerente"; "Caixa"; "Vendedor"; "Gerente"] =
  ["Caixa"; "Gerente"; "Vendedor"].
Proof. vm_compute. reflexivity. Qed.

(** ** Totality *)

(** C8: the constructors of the three instrument classes, of
    [Funcionario] and of [Loja] return on every heap, the empty one
    included, with a reference that was not in use and now names the new
    object; on a heap whose stores list only live objects, both queries
    return a dict for every store and raise nothing. *)
Theorem construtores_e_consultas_totais σ :
  (∀ ins, ∃ r σ', novo_instrumento ins σ = (Ret r, σ') ∧
      instrumentos σ !! r = None ∧ instrumentos σ' !! r = Some (DaClasse ins)) ∧
  (∀ nome cpf_ sal cargo_, ∃ r σ',
      novo_funcionario nome cpf_ sal cargo_ σ = (Ret r, σ') ∧
      pessoal σ !! r = None ∧
      pessoal σ' !! r = Some (mkFuncionario nome cpf_ sal cargo_ None)) ∧
  (∀ loc, ∃ r σ', nova_loja loc σ = (Ret r, σ') ∧
      lojas σ !! r = None ∧ lojas σ' !! r = Some (mkLoja loc [] [] None)) ∧
  (∀ s, fechado σ → is_Some (lojas σ !! s) →
      (∃ d, consultar_instrumentos s σ = (Ret d, σ)) ∧
      (∃ d, consultar_funcionarios_por_cargo s σ = (Ret d, σ))).
Proof.
  split_and!.
  - intros ins. eexists _, _. split; [reflexivity|]. simpl.
    split; [apply not_elem_of_dom, is_fresh | apply lookup_insert_eq].
  - intros nome cpf_ sal cargo_. eexists _, _. split; [reflexivity|]. simpl.
    split; [apply not_elem_of_dom, is_fresh | apply lookup_insert_eq].
  - intros loc. eexists _, _. split; [reflexivity|]. simpl.
    split; [apply not_elem_of_dom, is_fresh | apply lookup_insert_eq].
  - intros s Hf [L Hs]. split.
    + eexists. apply (consultar_instrumentos_run σ s L Hs).
      intros i Hi. apply (Hf s). by rewrite (estoque_de_lookup _ _ _ Hs).
    + eexists. apply (consultar_funcionarios_por_cargo_run σ s L Hs).
      intros e He. apply (Hf s). by rewrite (quadro_lookup _ _ _ Hs).
Qed.

(** ** Consistency in reachable heaps *)

(** The outcomes of [remover_funcionario] and [mudar_loja] on live
    arguments. *)
Lemma remover_funcionario_casos σ s e :
  is_Some (lojas σ !! s) → is_Some (pessoal σ !! e) →
  (remover_funcionario s e σ).2 = σ ∨
  ∃ σ', remover_funcionario s e σ = (Ret tt, σ').
Proof.
  intros [L Hs] [F He].
  destruct (py_remove e (funcionarios L)) as [l'|] eqn:Hrm.
  - right. eexists. by eapply remover_funcionario_run.
  - left. apply py_remove_None in Hrm.
    by rewrite (remover_funcionario_ausente σ s e L).
Qed.

Lemma mudar_loja_casos σ e nova :
  is_Some (lojas σ !! nova) → is_Some (pessoal σ !! e) →
  (mudar_loja e nova σ).2 = σ ∨
  (loja_de σ e = None ∧
   ∃ σ', adicionar_funcionario nova e σ = (Ret tt, σ') ∧
         mudar_loja e nova σ = (Ret tt, σ')) ∨
  (∃ old σ1 σ2,
     loja_de σ e = Some old ∧
     remover_funcionario old e σ = (Ret tt, σ1) ∧
     adicionar_funcionario nova e σ1 = (Ret tt, σ2) ∧
     mudar_loja e nova σ = (Ret tt, σ2)).
Proof.
  intros [Ln Hn] [F He].
  assert (loja_de σ e = loja_atual F) as Hde.
  { unfold loja_de. by rewrite He. }
  destruct (loja_atual F) as [old|] eqn:Hat.
  - assert (∀ x, remover_funcionario old e σ = (Raise x, σ) →
                 (mudar_loja e nova σ).2 = σ) as Hfalha.
    { intros x Hx. unfold mudar_loja.
      rewrite (bind_ret _ _ σ F σ) by (by executa).
      rewrite Hat. by rewrite (bind_raise _ _ σ x σ). }
    destruct (lojas σ !! old) as [Lo|] eqn:Ho.
    + destruct (decide (e ∈ funcionarios Lo)) as [Hin | Hin].
      * right; right.
        destruct (mudar_loja_com_loja σ e old nova F Lo Ln) as (σ1 & σ2 & ?);
          [done..|].
        by exists old, σ1, σ2.
      * left. eapply Hfalha. by eapply remover_funcionario_ausente.
    + left. apply (Hfalha BadRef). unfold remover_funcionario. by executa.
  - right; left. split; [done|]. eexists. split.
    + by eapply adicionar_funcionario_run.
    + by eapply mudar_loja_sem_loja.
Qed.

Lemma alterar_loja_quadro f s σ :
  (∀ L, funcionarios (f L) = funcionarios L) →
  ∀ s', quadro (alterar_loja f s σ).2 s' = quadro σ s'.
Proof.
  intros Hf s'. unfold alterar_loja.
  destruct (lojas σ !! s) as [L|] eqn:Hs; simpl; [|done].
  unfold quadro. simpl. rewrite lookup_insert. case_decide; subst; [|done].
  simpl. by rewrite Hf, Hs.
Qed.

Lemma alterar_loja_loja_de f s σ e :
  loja_de (alterar_loja f s σ).2 e = loja_de σ e.
Proof. unfold alterar_loja. by destruct (lojas σ !! s). Qed.

(** Statements other than the three that move employees change neither
    a list of employees nor a [loja_atual]. *)
Lemma executar_neutro c σ :
  move_funcionario c = false →
  (∀ s, quadro (executar c σ) s = quadro σ s) ∧
  (∀ e, loja_de (executar c σ) e = loja_de σ e).
Proof.
  destruct c; try discriminate; intros _; simpl.
  - split; [|done]. intros s. unfold quadro. simpl.
    rewrite lookup_insert. case_decide; subst; [|done]. simpl.
    pose proof (is_fresh (dom (lojas σ))) as Hfr.
    apply not_elem_of_dom in Hfr. by rewrite Hfr.
  - split; [done|]. intros e. unfold loja_de. simpl.
    rewrite lookup_insert. case_decide; subst; [|done]. simpl.
    pose proof (is_fresh (dom (pessoal σ))) as Hfr.
    apply not_elem_of_dom in Hfr. by rewrite Hfr.
  - done.
  - unfold adicionar_instrumento. split.
    + by apply alterar_loja_quadro.
    + intros e. apply alterar_loja_loja_de.
  - unfold remover_instrumento. executa.
    destruct (lojas σ !! s) as [L|] eqn:Hs; simpl; [|done].
    destruct (py_remove i (estoque L)); simpl; [|done]. split.
    + by apply alterar_loja_quadro.
    + intros e. apply alterar_loja_loja_de.
  - split.
    + by apply alterar_loja_quadro.
    + intros e. apply alterar_loja_loja_de.
  - by rewrite consultar_instrumentos_heap.
  - by rewrite consultar_funcionarios_por_cargo_heap.
  - done.
Qed.

(** *** Consistency under the three statements that move employees *)

Lemma invariante_neutro σ σ' :
  (∀ s, quadro σ' s = quadro σ s) → (∀ e, loja_de σ' e = loja_de σ e) →
  invariante σ → invariante σ'.
Proof.
  intros Hq Hl [Hc Hn]. split.
  - intros e s. rewrite Hq, Hl. apply Hc.
  - intros s. rewrite Hq. apply Hn.
Qed.

Lemma invariante_adicionar σ σ' s e r :
  invariante σ → loja_de σ e = None →
  adicionar_funcionario s e σ = (Ret r, σ') → invariante σ'.
Proof.
  intros [Hc Hn] Hnone Hrun. unfold consistente, sem_repeticao in *.
  destruct (adicionar_funcionario_obs _ _ _ _ _ Hrun) as [Hq Hl].
  assert (∀ s', e ∉ quadro σ s') as Hfora.
  { intros s' Hin. apply Hc in Hin. congruence. }
  split.
  - intros e' s'. rewrite Hq, Hl.
    destruct (decide (s' = s)) as [-> | Hs]; destruct (decide (e' = e)) as [-> | He].
    + split; [done|]. intros _. apply elem_of_app. right. apply list_elem_of_here.
    + rewrite elem_of_app, list_elem_of_singleton, Hc. naive_solver.
    + split; [by intros ?%Hfora | congruence].
    + apply Hc.
  - intros s'. rewrite Hq. case_decide; subst; [|apply Hn].
    apply NoDup_app. split_and!; [apply Hn | | apply NoDup_singleton].
    intros x Hx ->%list_elem_of_singleton. by apply Hfora in Hx.
Qed.

Lemma invariante_remover σ σ' s e r :
  invariante σ →
  remover_funcionario s e σ = (Ret r, σ') →
  invariante σ' ∧ loja_de σ' e = None.
Proof.
  intros [Hc Hn] Hrun. unfold consistente, sem_repeticao in *.
  destruct (remover_funcionario_obs _ _ _ _ _ Hrun) as (l' & Hrm & Hq & Hl).
  destruct (py_remove_NoDup _ _ _ Hrm (Hn s)) as [Hnd' Hfora].
  assert (e ∈ quadro σ s) as Hin.
  { destruct (decide (e ∈ quadro σ s)) as [|Hno]; [done|].
    apply py_remove_None in Hno. congruence. }
  split; [split|].
  - intros e' s'. rewrite Hq, Hl.
    destruct (decide (s' = s)) as [-> | Hs]; destruct (decide (e' = e)) as [-> | He].
    + split; [done | discriminate].
    + rewrite (py_remove_outro _ _ _ _ Hrm He). apply Hc.
    + split; [|discriminate]. intros Hin'.
      apply Hc in Hin, Hin'. congruence.
    + apply Hc.
  - intros s'. rewrite Hq. case_decide; [done | apply Hn].
  - by rewrite Hl, decide_True.
Qed.

Lemma invariante_preservado σ c :
  invariante σ → disciplinada σ c = true → invariante (executar c σ).
Proof.
  intros Hinv Hok. unfold disciplinada in Hok.
  apply andb_true_iff in Hok as [Htip Hdisc].
  destruct (move_funcionario c) eqn:Hmv.
  - destruct c; try discriminate; simpl in *;
      apply andb_true_iff in Htip as [Hs%tem_loja_true He%tem_funcionario_true].
    + apply bool_decide_eq_true in Hdisc.
      destruct Hs as [L Hs], He as [F He].
      rewrite (adicionar_funcionario_run σ s e L F Hs He). simpl.
      eapply invariante_adicionar; [done | done |].
      by apply adicionar_funcionario_run.
    + destruct (remover_funcionario_casos σ s e Hs He) as [-> | [σ' Hrun]];
        [done|].
      rewrite Hrun. simpl. by eapply invariante_remover.
    + destruct (mudar_loja_casos σ e s Hs He)
        as [-> | [(Hnone & σ' & Hadd & ->) | (old & σ1 & σ2 & _ & Hrm & Hadd & ->)]];
        simpl.
      * done.
      * by eapply invariante_adicionar.
      * destruct (invariante_remover _ _ _ _ _ Hinv Hrm) as [Hinv1 Hnone].
        by eapply invariante_adicionar.
  - destruct (executar_neutro c σ Hmv) as [Hq Hl].
    by eapply invariante_neutro.
Qed.

Lemma invariante_vazio : invariante heap_vazio.
Proof.
  split.
  - intros e s. unfold quadro, loja_de. simpl. rewrite !lookup_empty. simpl.
    split; [by intros ?%elem_of_nil | discriminate].
  - intros s. unfold quadro. simpl. rewrite lookup_empty. constructor.
Qed.

Lemma alcancavel_invariante σ : alcancavel disciplinada σ → invariante σ.
Proof.
  induction 1 as [|σ c Hσ IH Hc]; [apply invariante_vazio|].
  by apply invariante_preservado.
Qed.

Lemma mudar_loja_spec_witness :
  ∃ σ1 σ2,
    remover_funcionario 0 1 heap_duas_lojas = (Ret tt, σ1) ∧
    adicionar_funcionario 1 1 σ1 = (Ret tt, σ2) ∧
    mudar_loja 1 1 heap_duas_lojas = (Ret tt, σ2) ∧
    loja_de σ2 1 = Some 1%nat ∧
    1%nat ∈ quadro σ2 1 ∧
    (1%nat ∉ quadro σ2 0) ∧
    (∀ s, 1%nat ∉ quadro σ1 s) ∧
    (∀ s, 1%nat ∈ quadro σ2 s ↔ s = 1%nat).
Proof.
  assert (∀ s, 1%nat ∈ quadro heap_duas_lojas s → s = 0%nat) as Hso.
  { assert (invariante heap_duas_lojas) as [Hc _].
    { apply alcancavel_invariante, alcancavel_executar_todas;
        [constructor | vm_compute; reflexivity]. }
    intros s Hs. apply Hc in Hs. vm_compute in Hs. by injection Hs. }
  assert (1%nat ∈ funcionarios loja_sp) as Hin.
  { apply list_elem_of_further, list_elem_of_here. }
  destruct (mudar_loja_spec heap_duas_lojas 1 0 1 _ loja_sp _
              eq_refl eq_refl eq_refl Hin eq_refl)
    as (σ1 & σ2 & H1 & H2 & H12 & Hl & Hn & Hne & _ & Hum).
  destruct Hne as [_ Hfora]; [done|].
  destruct Hum as (Hz & Hs & _); [reflexivity | exact Hso |].
  exists σ1, σ2. split_and!; try done. by apply Hfora.
Defined.

(** C1 (as stated, refuted): in a reachable heap where the employee is in
    store 0 and everything is consistent, the well-typed call
    [adicionar_funcionario] of store 1 leaves a reachable heap in which
    the employee is still in store 0's list while [loja_atual] is store 1. *)
Lemma adicionar_funcionario_quebra_consistencia :
  alcancavel bem_tipada heap_um_funcionario ∧
  consistente heap_um_funcionario ∧
  bem_tipada heap_um_funcionario (AdicionarFuncionario 1 0) = true ∧
  ∃ σ', adicionar_funcionario 1 0 heap_um_funcionario = (Ret tt, σ') ∧
        alcancavel bem_tipada σ' ∧
        0%nat ∈ quadro σ' 0 ∧ loja_de σ' 0 = Some 1%nat ∧
        ¬ consistente σ'.
Proof.
  assert (alcancavel bem_tipada heap_um_funcionario) as Halc.
  { apply alcancavel_executar_todas; [constructor | vm_compute; reflexivity]. }
  assert (alcancavel disciplinada heap_um_funcionario) as Hdis.
  { apply alcancavel_executar_todas; [constructor | vm_compute; reflexivity]. }
  split_and!; [done | by apply alcancavel_invariante | reflexivity |].
  eexists. split; [vm_compute; reflexivity|].
  split_and!.
  - apply (alc_passo bem_tipada _ (AdicionarFuncionario 1 0) Halc). reflexivity.
  - vm_compute. apply list_elem_of_here.
  - reflexivity.
  - intros Hc. specialize (Hc 0%nat 0%nat). vm_compute in Hc.
    destruct Hc as [Hc _]. specialize (Hc (list_elem_of_here _ _)).
    discriminate.
Qed.

(** C1 (amended): in every heap reached by well-typed statements among
    which [adicionar_funcionario] is only called for an employee whose
    [loja_atual] is [None], an employee is in the list of a store exactly
    when that store is its [loja_atual], no list holds an employee twice,
    and every further such statement (any [remover_funcionario] or
    [mudar_loja] included) keeps this. *)
Theorem consistencia_disciplinada σ :
  alcancavel disciplinada σ →
  consistente σ ∧ sem_repeticao σ ∧
  ∀ c, disciplinada σ c = true →
       consistente (executar c σ) ∧ sem_repeticao (executar c σ).
Proof.
  intros Hσ. pose proof (alcancavel_invariante σ Hσ) as Hinv.
  destruct Hinv as [Hc Hn]. split_and!; [done | done |].
  intros c Hok. by apply invariante_preservado.
Qed.

Lemma consistencia_disciplinada_witness :
  consistente heap_duas_lojas ∧ sem_repeticao heap_duas_lojas ∧
  ∀ c, disciplinada heap_duas_lojas c = true →
       consistente (executar c heap_duas_lojas) ∧
       sem_repeticao (executar c heap_duas_lojas).
Proof.
  apply (consistencia_disciplinada heap_duas_lojas).
  apply alcancavel_executar_todas; [constructor | vm_compute; reflexivity].
Defined.

(** *** Reachable heaps hold no reference to a missing object *)

Lemma fechado_passo σ σ' :
  fechado σ →
  (∀ e, is_Some (pessoal σ !! e) → is_Some (pessoal σ' !! e)) →
  (∀ i, is_Some (instrumentos σ !! i) → is_Some (instrumentos σ' !! i)) →
  (∀ s e, e ∈ quadro σ' s → e ∈ quadro σ s ∨ is_Some (pessoal σ' !! e)) →
  (∀ s i, i ∈ estoque_de σ' s →
          i ∈ estoque_de σ s ∨ is_Some (instrumentos σ' !! i)) →
  fechado σ'.
Proof.
  intros Hf Hp Hi Hq He s. split.
  - intros e Hin. destruct (Hq s e Hin) as [Hold | ?]; [|done].
    apply Hp. by apply (Hf s).
  - intros i Hin. destruct (He s i Hin) as [Hold | ?]; [|done].
    apply Hi. by apply (Hf s).
Qed.

Lemma adicionar_funcionario_resto σ σ' s e r :
  adicionar_funcionario s e σ = (Ret r, σ') →
  (∀ s', estoque_de σ' s' = estoque_de σ s') ∧
  instrumentos σ' = instrumentos σ ∧
  (∀ e', is_Some (pessoal σ !! e') → is_Some (pessoal σ' !! e')) ∧
  is_Some (pessoal σ' !! e).
Proof.
  unfold adicionar_funcionario. executa.
  destruct (lojas σ !! s) as [L|] eqn:Hs; [|discriminate]. simpl.
  destruct (pessoal σ !! e) as [F|] eqn:He; [|discriminate].
  intros [= _ <-]. unfold estoque_de. simpl. split_and!.
  - intros s'. rewrite lookup_insert. case_decide; subst; [|done].
    simpl. by rewrite Hs.
  - done.
  - intros e'. rewrite lookup_insert. case_decide; subst; [by eexists | done].
  - rewrite lookup_insert_eq. by eexists.
Qed.

Lemma remover_funcionario_resto σ σ' s e r :
  remover_funcionario s e σ = (Ret r, σ') →
  (∀ s', estoque_de σ' s' = estoque_de σ s') ∧
  instrumentos σ' = instrumentos σ ∧
  (∀ e', is_Some (pessoal σ !! e') → is_Some (pessoal σ' !! e')).
Proof.
  unfold remover_funcionario. executa.
  destruct (lojas σ !! s) as [L|] eqn:Hs; [|discriminate]. simpl.
  destruct (py_remove e (funcionarios L)) as [l'|] eqn:Hrm; [|discriminate].
  executa.
  destruct (pessoal σ !! e) as [F|] eqn:He; [|discriminate].
  intros [= _ <-]. unfold estoque_de. simpl. split_and!.
  - intros s'. rewrite lookup_insert. case_decide; subst; [|done].
    simpl. by rewrite Hs.
  - done.
  - intros e'. rewrite lookup_insert. case_decide; subst; [by eexists | done].
Qed.

Lemma fechado_adicionar σ σ' s e r :
  fechado σ → adicionar_funcionario s e σ = (Ret r, σ') → fechado σ'.
Proof.
  intros Hf Hrun.
  destruct (adicionar_funcionario_obs _ _ _ _ _ Hrun) as [Hq _].
  destruct (adicionar_funcionario_resto _ _ _ _ _ Hrun) as (He & Hi & Hp & Hviv).
  apply (fechado_passo σ); [done | done | by rewrite Hi | |].
  - intros s' e'. rewrite Hq. case_decide; subst; [|by left].
    rewrite elem_of_app, list_elem_of_singleton. intros [? | ->]; [by left | by right].
  - intros s' i. rewrite He. by left.
Qed.

Lemma fechado_remover σ σ' s e r :
  fechado σ → remover_funcionario s e σ = (Ret r, σ') → fechado σ'.
Proof.
  intros Hf Hrun.
  destruct (remover_funcionario_obs _ _ _ _ _ Hrun) as (l' & Hrm & Hq & _).
  destruct (remover_funcionario_resto _ _ _ _ _ Hrun) as (He & Hi & Hp).
  apply (fechado_passo σ); [done | done | by rewrite Hi | |].
  - intros s' e'. rewrite Hq. case_decide; subst; [|by left].
    intros Hin. left. by eapply py_remove_sublista.
  - intros s' i. rewrite He. by left.
Qed.

Lemma alterar_loja_estoque f s σ L :
  lojas σ !! s = Some L →
  ∀ s', estoque_de (alterar_loja f s σ).2 s' =
        if decide (s' = s) then estoque (f L) else estoque_de σ s'.
Proof.
  intros Hs s'. unfold alterar_loja. rewrite Hs. unfold estoque_de. simpl.
  rewrite lookup_insert. case_decide; subst.
  - by rewrite decide_True.
  - by rewrite decide_False.
Qed.

Lemma fechado_preservado σ c :
  fechado σ → bem_tipada σ c = true → fechado (executar c σ).
Proof.
  intros Hf Htip. destruct c; simpl in *.
  - apply (fechado_passo σ); [done | done | done | |]; intros s x Hx; left;
      revert Hx; unfold quadro, estoque_de; simpl;
      (rewrite lookup_insert; case_decide; subst; [|done]);
      simpl; by intros ?%elem_of_nil.
  - apply (fechado_passo σ); [done | | done | by left | by left].
    intros e. simpl. rewrite lookup_insert. case_decide; [by eexists | done].
  - apply (fechado_passo σ); [done | done | | by left | by left].
    intros i. simpl. rewrite lookup_insert. case_decide; [by eexists | done].
  - apply andb_true_iff in Htip as [[L Hs]%tem_loja_true [F He]%tem_funcionario_true].
    eapply fechado_adicionar; [done|].
    rewrite (adicionar_funcionario_run σ s e L F Hs He). reflexivity.
  - apply andb_true_iff in Htip as [Hs%tem_loja_true He%tem_funcionario_true].
    destruct (remover_funcionario_casos σ s e Hs He) as [-> | [σ' Hrun]]; [done|].
    rewrite Hrun. simpl. by eapply fechado_remover.
  - apply andb_true_iff in Htip as [[L Hs]%tem_loja_true Hi%tem_instrumento_true].
    unfold adicionar_instrumento.
    apply (fechado_passo σ); [done | | | |].
    + intros e. unfold alterar_loja. by rewrite Hs.
    + intros j. unfold alterar_loja. by rewrite Hs.
    + intros s' e. rewrite alterar_loja_quadro; [by left | done].
    + intros s' j. rewrite (alterar_loja_estoque _ _ _ L Hs).
      case_decide; subst; [|by left]. simpl.
      rewrite elem_of_app, list_elem_of_singleton, (estoque_de_lookup _ _ _ Hs).
      intros [? | ->]; [by left | right].
      unfold alterar_loja. by rewrite Hs.
  - apply andb_true_iff in Htip as [[L Hs]%tem_loja_true Hi%tem_instrumento_true].
    unfold remover_instrumento.
    rewrite (bind_ret _ _ σ L σ) by (unfold ler_loja; by rewrite Hs).
    destruct (py_remove i (estoque L)) as [l'|] eqn:Hrm; [|done].
    apply (fechado_passo σ); [done | | | |].
    + intros e. unfold alterar_loja. by rewrite Hs.
    + intros j. unfold alterar_loja. by rewrite Hs.
    + intros s' e. rewrite alterar_loja_quadro; [by left | done].
    + intros s' j. rewrite (alterar_loja_estoque _ _ _ L Hs).
      case_decide; subst; [|by left]. simpl.
      rewrite (estoque_de_lookup _ _ _ Hs). intros Hin. left.
      by eapply py_remove_sublista.
  - apply andb_true_iff in Htip as [Hs%tem_loja_true He%tem_funcionario_true].
    destruct (mudar_loja_casos σ e s Hs He)
      as [-> | [(_ & σ' & Hadd & ->) | (old & σ1 & σ2 & _ & Hrm & Hadd & ->)]];
      simpl.
    + done.
    + by eapply fechado_adicionar.
    + eapply fechado_adicionar; [|done]. by eapply fechado_remover.
  - apply andb_true_iff in Htip as [[L Hs]%tem_loja_true _].
    apply (fechado_passo σ); [done | | | |].
    + intros e. unfold alterar_loja. by rewrite Hs.
    + intros j. unfold alterar_loja. by rewrite Hs.
    + intros s' e. rewrite alterar_loja_quadro; [by left | done].
    + intros s' j. rewrite (alterar_loja_estoque _ _ _ L Hs).
      case_decide; subst; [|by left]. simpl.
      rewrite (estoque_de_lookup _ _ _ Hs). by left.
  - by rewrite consultar_instrumentos_heap.
  - by rewrite consultar_funcionarios_por_cargo_heap.
  - apply (fechado_passo σ); [done | done | | by left | by left].
    intros i. simpl. rewrite lookup_insert. case_decide; [by eexists | done].
Qed.

Lemma alcancavel_fechado σ : alcancavel bem_tipada σ → fechado σ.
Proof.
  induction 1 as [|σ c Hσ IH Hc]; [|by apply fechado_preservado].
  intros s. unfold quadro, estoque_de. simpl. rewrite lookup_empty. simpl.
  split; intros x Hx; by apply elem_of_nil in Hx.
Qed.

Lemma construtores_e_consultas_totais_witness :
  (∀ ins, ∃ r σ', novo_instrumento ins heap_vazio = (Ret r, σ') ∧
      instrumentos heap_vazio !! r = None ∧
      instrumentos σ' !! r = Some (DaClasse ins)) ∧
  (∀ nome cpf_ sal cargo_, ∃ r σ',
      novo_funcionario nome cpf_ sal cargo_ heap_vazio = (Ret r, σ') ∧
      pessoal heap_vazio !! r = None ∧
      pessoal σ' !! r = Some (mkFuncionario nome cpf_ sal cargo_ None)) ∧
  (∀ loc, ∃ r σ', nova_loja loc heap_vazio = (Ret r, σ') ∧
      lojas heap_vazio !! r = None ∧
      lojas σ' !! r = Some (mkLoja loc [] [] None)) ∧
  (∃ d, consultar_instrumentos 0 heap_duas_lojas = (Ret d, heap_duas_lojas)) ∧
  (∃ d, consultar_funcionarios_por_cargo 0 heap_duas_lojas =
        (Ret d, heap_duas_lojas)) ∧
  (∃ d, consultar_instrumentos 0 heap_outra_subclasse =
        (Ret d, heap_outra_subclasse)).
Proof.
  destruct (construtores_e_consultas_totais heap_vazio) as (Hi & Hf & Hl & _).
  destruct (construtores_e_consultas_totais heap_duas_lojas) as (_ & _ & _ & Hq).
  destruct (construtores_e_consultas_totais heap_outra_subclasse)
    as (_ & _ & _ & Hq').
  destruct (Hq 0%nat) as [Hqi Hqf].
  { apply alcancavel_fechado, alcancavel_executar_todas;
      [constructor | vm_compute; reflexivity]. }
  { by eexists. }
  destruct (Hq' 0%nat) as [Hqi' _].
  { apply alcancavel_fechado, alcancavel_executar_todas;
      [constructor | vm_compute; reflexivity]. }
  { by eexists. }
  by split_and!.
Defined.

(** *** What every program keeps *)

Lemma semi_consistente_preservado σ c :
  semi_consistente σ → bem_tipada σ c = true → semi_consistente (executar c σ).
Proof.
  intros Hsc Htip.
  assert (∀ σ0 σ' s e r, semi_consistente σ0 →
            adicionar_funcionario s e σ0 = (Ret r, σ') →
            semi_consistente σ') as Hadd.
  { intros σ0 σ' s e r H0 Hrun e' s'.
    destruct (adicionar_funcionario_obs _ _ _ _ _ Hrun) as [Hq Hl].
    rewrite Hq, Hl.
    destruct (decide (e' = e)) as [-> | He].
    - intros [= <-]. rewrite decide_True by done.
      apply elem_of_app. right. apply list_elem_of_here.
    - intros Hin%H0. case_decide; subst; [|done].
      apply elem_of_app. by left. }
  assert (∀ σ0 σ' s e r, semi_consistente σ0 →
            remover_funcionario s e σ0 = (Ret r, σ') →
            semi_consistente σ') as Hrem.
  { intros σ0 σ' s e r H0 Hrun e' s'.
    destruct (remover_funcionario_obs _ _ _ _ _ Hrun) as (l' & Hrm & Hq & Hl).
    rewrite Hq, Hl.
    destruct (decide (e' = e)) as [-> | He]; [discriminate|].
    intros Hin%H0. case_decide; subst; [|done].
    by apply (py_remove_outro _ _ _ _ Hrm He). }
  destruct (move_funcionario c) eqn:Hmv.
  - destruct c; try discriminate; simpl in *;
      apply andb_true_iff in Htip as [Hs%tem_loja_true He%tem_funcionario_true].
    + destruct Hs as [L Hs], He as [F He].
      eapply Hadd; [done|].
      rewrite (adicionar_funcionario_run σ s e L F Hs He). reflexivity.
    + destruct (remover_funcionario_casos σ s e Hs He) as [-> | [σ' Hrun]];
        [done|].
      rewrite Hrun. simpl. by eapply Hrem.
    + destruct (mudar_loja_casos σ e s Hs He)
        as [-> | [(_ & σ' & Ha & ->) | (old & σ1 & σ2 & _ & Hr & Ha & ->)]];
        simpl; [done | by eapply Hadd |].
      eapply Hadd; [|done]. by eapply Hrem.
  - destruct (executar_neutro c σ Hmv) as [Hq Hl].
    intros e s. rewrite Hq, Hl. apply Hsc.
Qed.

(** In every heap a well-typed program reaches, an employee's
    [loja_atual], when set, is a store whose list holds the employee. *)
Lemma alcancavel_semi_consistente σ :
  alcancavel bem_tipada σ → semi_consistente σ.
Proof.
  induction 1 as [|σ c Hσ IH Hc]; [|by apply semi_consistente_preservado].
  intros e s. unfold loja_de. simpl. by rewrite lookup_empty.
Qed.

(** ** Stock updates *)

Lemma py_remove_app_l x l l' k :
  py_remove x l = Some l' → py_remove x (l ++ k) = Some (l' ++ k).
Proof.
  revert l'. induction l as [|y l IH]; intros l'; simpl; [discriminate|].
  case_decide; [by intros [= <-]|].
  destruct (py_remove x l) as [r|]; [|discriminate].
  intros [= <-]. by rewrite (IH r).
Qed.

Lemma py_remove_app_r x l k :
  x ∉ l → py_remove x (l ++ k) = (λ r, l ++ r) <$> py_remove x k.
Proof.
  induction l as [|y l IH]; simpl.
  - intros _. by destruct (py_remove x k).
  - rewrite not_elem_of_cons. intros [Hne Hin].
    rewrite decide_False, IH by done. by destruct (py_remove x k).
Qed.

Lemma py_remove_snoc x l :
  x ∉ l → py_remove x (l ++ [x]) = Some l.
Proof.
  intros Hin. rewrite py_remove_app_r by done. simpl.
  rewrite decide_True by done. simpl. by rewrite app_nil_r.
Qed.

Lemma py_remove_Permutation x l l' :
  py_remove x l = Some l' → l ≡ₚ x :: l'.
Proof.
  intros H. destruct (decide (x ∈ l)) as [Hin | Hin].
  - destruct (py_remove_Some x l Hin) as (l1 & l2 & -> & _ & Heq).
    rewrite Heq in H. injection H as <-.
    by rewrite Permutation_middle.
  - apply py_remove_None in Hin. congruence.
Qed.

Lemma com_estoque_id L : com_estoque (estoque L) L = L.
Proof. by destruct L. Qed.

Lemma com_funcionarios_id L : com_funcionarios (funcionarios L) L = L.
Proof. by destruct L. Qed.

Lemma com_loja_atual_id F : com_loja_atual (loja_atual F) F = F.
Proof. by destruct F. Qed.

Lemma heap_eta σ : mkHeap (lojas σ) (pessoal σ) (instrumentos σ) = σ.
Proof. by destruct σ. Qed.

Lemma adicionar_instrumento_run σ s i L :
  lojas σ !! s = Some L →
  adicionar_instrumento s i σ =
  (Ret tt, mkHeap (<[s := com_estoque (estoque L ++ [i]) L]> (lojas σ))
                  (pessoal σ) (instrumentos σ)).
Proof. intros Hs. unfold adicionar_instrumento. by executa. Qed.

Lemma remover_instrumento_run σ s i L l' :
  lojas σ !! s = Some L → py_remove i (estoque L) = Some l' →
  remover_instrumento s i σ =
  (Ret tt, mkHeap (<[s := com_estoque l' L]> (lojas σ))
                  (pessoal σ) (instrumentos σ)).
Proof. intros Hs Hrm. unfold remover_instrumento. by executa. Qed.

(** X1: [adicionar_instrumento] has no guard: whether or not the
    instrument is already stocked, here or elsewhere, it is appended to
    this store's stock, which then holds it once more than before; the
    store's employees, every other store, every employee and every
    instrument stay as they were. *)
Theorem adicionar_instrumento_spec σ s i L :
  lojas σ !! s = Some L →
  ∃ σ', adicionar_instrumento s i σ = (Ret tt, σ') ∧
        estoque_de σ' s = estoque_de σ s ++ [i] ∧
        ocorrencias i (estoque_de σ' s) = S (ocorrencias i (estoque_de σ s)) ∧
        quadro σ' s = quadro σ s ∧
        (∀ s', s' ≠ s → lojas σ' !! s' = lojas σ !! s') ∧
        pessoal σ' = pessoal σ ∧ instrumentos σ' = instrumentos σ.
Proof.
  intros Hs. eexists. split; [by apply adicionar_instrumento_run|].
  unfold estoque_de, quadro. simpl. rewrite lookup_insert_eq, Hs. simpl.
  split_and!; [done | | done | | done | done].
  - rewrite ocorrencias_app, ocorrencias_cons, decide_True by done.
    unfold ocorrencias at 2. simpl. lia.
  - intros s' Hne. by rewrite lookup_insert_ne.
Qed.

Lemma adicionar_instrumento_spec_witness :
  ∃ σ', adicionar_instrumento 1 0 heap_duas_lojas = (Ret tt, σ') ∧
        estoque_de σ' 1 = estoque_de heap_duas_lojas 1 ++ [0%nat] ∧
        ocorrencias 0 (estoque_de σ' 1) =
          S (ocorrencias 0 (estoque_de heap_duas_lojas 1)) ∧
        quadro σ' 1 = quadro heap_duas_lojas 1 ∧
        (∀ s', s' ≠ 1%nat → lojas σ' !! s' = lojas heap_duas_lojas !! s') ∧
        pessoal σ' = pessoal heap_duas_lojas ∧
        instrumentos σ' = instrumentos heap_duas_lojas.
Proof.
  eapply (adicionar_instrumento_spec heap_duas_lojas 1 0). reflexivity.
Defined.

(** X2: for an instrument present in the stock, [remover_instrumento]
    returns normally and deletes its first occurrence only; the instrument
    object itself, the store's employees, every other store and every
    employee stay as they were. *)
Theorem remover_instrumento_spec σ s i L :
  lojas σ !! s = Some L → i ∈ estoque L →
  ∃ σ' l1 l2,
    remover_instrumento s i σ = (Ret tt, σ') ∧
    estoque_de σ s = l1 ++ i :: l2 ∧ (i ∉ l1) ∧ estoque_de σ' s = l1 ++ l2 ∧
    S (ocorrencias i (estoque_de σ' s)) = ocorrencias i (estoque_de σ s) ∧
    quadro σ' s = quadro σ s ∧
    (∀ s', s' ≠ s → lojas σ' !! s' = lojas σ !! s') ∧
    pessoal σ' = pessoal σ ∧ instrumentos σ' = instrumentos σ.
Proof.
  intros Hs Hin.
  destruct (py_remove_Some i _ Hin) as (l1 & l2 & Hl & Hl1 & Hrm).
  eexists _, l1, l2. split; [by eapply remover_instrumento_run|].
  unfold estoque_de, quadro. simpl. rewrite lookup_insert_eq, Hs. simpl.
  split_and!; [done | done | done | | done | | done | done].
  - rewrite Hl, !ocorrencias_app, ocorrencias_cons, decide_True by done. lia.
  - intros s' Hne. by rewrite lookup_insert_ne.
Qed.

Lemma remover_instrumento_spec_witness :
  ∃ σ' l1 l2,
    remover_instrumento 0 1 heap_duas_lojas = (Ret tt, σ') ∧
    estoque_de heap_duas_lojas 0 = l1 ++ 1%nat :: l2 ∧ (1%nat ∉ l1) ∧
    estoque_de σ' 0 = l1 ++ l2 ∧
    S (ocorrencias 1 (estoque_de σ' 0)) =
      ocorrencias 1 (estoque_de heap_duas_lojas 0) ∧
    quadro σ' 0 = quadro heap_duas_lojas 0 ∧
    (∀ s', s' ≠ 0%nat → lojas σ' !! s' = lojas heap_duas_lojas !! s') ∧
    pessoal σ' = pessoal heap_duas_lojas ∧
    instrumentos σ' = instrumentos heap_duas_lojas.
Proof.
  eapply (remover_instrumento_spec heap_duas_lojas 0 1 loja_sp); [reflexivity|].
  apply list_elem_of_further, list_elem_of_here.
Defined.

(** X3: stocking an instrument and then removing it always returns
    normally and leaves the same instruments in stock, up to order; when
    the instrument was not in stock before, the heap is exactly the one
    before the two calls. *)
Theorem adicionar_remover_instrumento σ s i L :
  lojas σ !! s = Some L →
  ∃ σ', (adicionar_instrumento s i;; remover_instrumento s i) σ = (Ret tt, σ') ∧
        estoque_de σ' s ≡ₚ estoque_de σ s ∧
        (i ∉ estoque L → σ' = σ).
Proof.
  intros Hs.
  pose proof (adicionar_instrumento_run σ s i L Hs) as Hadd.
  set (σ1 := mkHeap _ _ _) in Hadd.
  assert (lojas σ1 !! s = Some (com_estoque (estoque L ++ [i]) L)) as Hs1.
  { unfold σ1. simpl. apply lookup_insert_eq. }
  assert (∃ l', py_remove i (estoque L ++ [i]) = Some l') as [l' Hrm].
  { destruct (py_remove i (estoque L ++ [i])) as [l'|] eqn:Hrm; [by eexists|].
    apply py_remove_None in Hrm. exfalso. apply Hrm, elem_of_app. right.
    apply list_elem_of_here. }
  pose proof (remover_instrumento_run σ1 s i _ l' Hs1 Hrm) as Hrem.
  eexists. split; [by rewrite (bind_ret _ _ σ tt σ1)|].
  unfold estoque_de. simpl. rewrite lookup_insert_eq, Hs. simpl. split.
  - apply py_remove_Permutation in Hrm. apply (Permutation_cons_inv (a := i)).
    rewrite <- Hrm. by rewrite Permutation_app_comm.
  - intros Hin. rewrite (py_remove_snoc i _ Hin) in Hrm. injection Hrm as <-.
    unfold σ1. simpl. rewrite insert_insert_eq.
    change (com_estoque (estoque L) (com_estoque (estoque L ++ [i]) L))
      with (com_estoque (estoque L) L).
    rewrite com_estoque_id, insert_id by done. apply heap_eta.
Qed.

Lemma adicionar_remover_instrumento_witness :
  ∃ σ', (adicionar_instrumento 1 0;; remover_instrumento 1 0) heap_duas_lojas
          = (Ret tt, σ') ∧
        estoque_de σ' 1 ≡ₚ estoque_de heap_duas_lojas 1 ∧
        (0%nat ∉ @nil nat → σ' = heap_duas_lojas).
Proof.
  eapply (adicionar_remover_instrumento heap_duas_lojas 1 0
            (mkLoja "Rio de Janeiro" [] [] None)).
  reflexivity.
Defined.

(** ** Moving employees: round trips and edge cases *)

(** X4: adding an employee to a store and then removing it from that
    store always returns normally, leaves the same employees in the list
    up to order, and leaves the employee with [loja_atual] [None], also
    when another store still lists the employee; when the employee was in
    no store before, the heap is exactly the one before the two calls. *)
Theorem adicionar_remover_funcionario σ s e L F :
  lojas σ !! s = Some L → pessoal σ !! e = Some F →
  ∃ σ', (adicionar_funcionario s e;; remover_funcionario s e) σ = (Ret tt, σ') ∧
        quadro σ' s ≡ₚ quadro σ s ∧
        loja_de σ' e = None ∧
        (∀ s', s' ≠ s → lojas σ' !! s' = lojas σ !! s') ∧
        (e ∉ funcionarios L → loja_atual F = None → σ' = σ).
Proof.
  intros Hs He.
  pose proof (adicionar_funcionario_run σ s e L F Hs He) as Hadd.
  set (σ1 := mkHeap _ _ _) in Hadd.
  assert (lojas σ1 !! s = Some (com_funcionarios (funcionarios L ++ [e]) L)) as Hs1.
  { unfold σ1. simpl. apply lookup_insert_eq. }
  assert (pessoal σ1 !! e = Some (com_loja_atual (Some s) F)) as He1.
  { unfold σ1. simpl. apply lookup_insert_eq. }
  assert (∃ l', py_remove e (funcionarios L ++ [e]) = Some l') as [l' Hrm].
  { destruct (py_remove e (funcionarios L ++ [e])) as [l'|] eqn:Hrm; [by eexists|].
    apply py_remove_None in Hrm. exfalso. apply Hrm, elem_of_app. right.
    apply list_elem_of_here. }
  pose proof (remover_funcionario_run σ1 s e _ _ l' Hs1 He1 Hrm) as Hrem.
  eexists. split; [by rewrite (bind_ret _ _ σ tt σ1)|].
  unfold quadro, loja_de. simpl. rewrite !lookup_insert_eq, Hs. simpl.
  split_and!; [| done | |].
  - apply py_remove_Permutation in Hrm. apply (Permutation_cons_inv (a := e)).
    rewrite <- Hrm. by rewrite Permutation_app_comm.
  - intros s' Hne. by rewrite !lookup_insert_ne.
  - intros Hin Hat. rewrite (py_remove_snoc e _ Hin) in Hrm. injection Hrm as <-.
    unfold σ1. simpl. rewrite !insert_insert_eq.
    change (com_funcionarios (funcionarios L)
              (com_funcionarios (funcionarios L ++ [e]) L))
      with (com_funcionarios (funcionarios L) L).
    change (com_loja_atual None (com_loja_atual (Some s) F))
      with (com_loja_atual None F).
    rewrite <- Hat, com_funcionarios_id, com_loja_atual_id, !insert_id by done.
    apply heap_eta.
Qed.

Lemma adicionar_remover_funcionario_witness :
  let σ := executar (NovoFuncionario "Tokar" "456.789.123-00" 2000%float "Caixa")
                    heap_duas_lojas in
  ∃ σ', (adicionar_funcionario 1 2;; remover_funcionario 1 2) σ = (Ret tt, σ') ∧
        quadro σ' 1 ≡ₚ quadro σ 1 ∧
        loja_de σ' 2 = None ∧
        (∀ s', s' ≠ 1%nat → lojas σ' !! s' = lojas σ !! s') ∧
        (2%nat ∉ @nil nat → @None nat = None → σ' = σ).
Proof.
  intros σ.
  eapply (adicionar_remover_funcionario σ 1 2
            (mkLoja "Rio de Janeiro" [] [] None)
            (mkFuncionario "Tokar" "456.789.123-00" 2000%float "Caixa" None));
    reflexivity.
Defined.

(** X5: in every heap that well-typed statements reach, [mudar_loja] on a
    live employee and a live store returns normally, with the employee in
    the new store's list and [loja_atual] set to it: the removal from the
    current store inside it cannot fail there. *)
Theorem mudar_loja_alcancavel σ e nova :
  alcancavel bem_tipada σ →
  is_Some (lojas σ !! nova) → is_Some (pessoal σ !! e) →
  ∃ σ', mudar_loja e nova σ = (Ret tt, σ') ∧
        loja_de σ' e = Some nova ∧ e ∈ quadro σ' nova.
Proof.
  intros Hσ [Ln Hn] [F He].
  pose proof (alcancavel_semi_consistente σ Hσ) as Hsc.
  assert (∃ σ0 σ', adicionar_funcionario nova e σ0 = (Ret tt, σ') ∧
                   mudar_loja e nova σ = (Ret tt, σ')) as (σ0 & σ' & Hadd & Hm).
  { destruct (loja_atual F) as [old|] eqn:Hat.
    - assert (e ∈ quadro σ old) as Hin.
      { apply Hsc. unfold loja_de. by rewrite He. }
      unfold quadro in Hin.
      destruct (lojas σ !! old) as [Lo|] eqn:Ho; [|by apply elem_of_nil in Hin].
      destruct (mudar_loja_com_loja σ e old nova F Lo Ln He Hat Ho Hin Hn)
        as (σ1 & σ2 & _ & H2 & H12).
      by exists σ1, σ2.
    - exists σ. eexists. split.
      + by eapply adicionar_funcionario_run.
      + by eapply mudar_loja_sem_loja. }
  exists σ'. split; [done|].
  destruct (adicionar_funcionario_obs _ _ _ _ _ Hadd) as [Hq Hl].
  rewrite Hq, Hl, !decide_True by done. split; [done|].
  apply elem_of_app. right. apply list_elem_of_here.
Qed.

Lemma mudar_loja_alcancavel_witness :
  ∃ σ', mudar_loja 0 0 heap_repetido = (Ret tt, σ') ∧
        loja_de σ' 0 = Some 0%nat ∧ 0%nat ∈ quadro σ' 0.
Proof.
  apply (mudar_loja_alcancavel heap_repetido 0 0).
  - apply alcancavel_executar_todas; [constructor | vm_compute; reflexivity].
  - by eexists.
  - by eexists.
Defined.

(** X6: when [loja_atual] names a store whose list does not hold the
    employee (a state only a direct attribute assignment produces),
    [mudar_loja] raises the [ValueError] of the removal and changes
    nothing: the employee is not added to the new store. *)
Theorem mudar_loja_fora_do_quadro σ e old nova F Lo :
  pessoal σ !! e = Some F → loja_atual F = Some old →
  lojas σ !! old = Some Lo → e ∉ funcionarios Lo →
  mudar_loja e nova σ = (Raise ValueError, σ).
Proof.
  intros He Hat Ho Hin. unfold mudar_loja.
  rewrite (bind_ret _ _ σ F σ) by (by executa).
  rewrite Hat.
  by rewrite (bind_raise _ _ σ ValueError σ)
    by (by eapply remover_funcionario_ausente).
Qed.

Lemma mudar_loja_fora_do_quadro_witness :
  mudar_loja 0 1 heap_atribuido = (Raise ValueError, heap_atribuido).
Proof.
  eapply (mudar_loja_fora_do_quadro heap_atribuido 0 0 1);
    [reflexivity | reflexivity | reflexivity |].
  vm_compute. apply not_elem_of_nil.
Defined.

Lemma mudar_loja_mesma_loja_run σ e s F L l' :
  pessoal σ !! e = Some F → loja_atual F = Some s →
  lojas σ !! s = Some L → py_remove e (funcionarios L) = Some l' →
  mudar_loja e s σ =
  (Ret tt, mkHeap (<[s := com_funcionarios (l' ++ [e]) L]> (lojas σ))
                  (pessoal σ) (instrumentos σ)).
Proof.
  intros He Hat Hs Hrm.
  pose proof (remover_funcionario_run σ s e L F l' Hs He Hrm) as H1.
  set (σ1 := mkHeap _ _ _) in H1.
  assert (lojas σ1 !! s = Some (com_funcionarios l' L)) as Hs1.
  { unfold σ1. simpl. apply lookup_insert_eq. }
  assert (pessoal σ1 !! e = Some (com_loja_atual None F)) as He1.
  { unfold σ1. simpl. apply lookup_insert_eq. }
  pose proof (adicionar_funcionario_run σ1 s e _ _ Hs1 He1) as H2.
  set (σ2 := mkHeap _ _ _) in H2.
  unfold mudar_loja.
  rewrite (bind_ret _ _ σ F σ) by (by executa).
  rewrite Hat.
  rewrite (bind_ret _ _ σ tt σ1) by done.
  rewrite (bind_ret _ _ σ1 tt σ2) by done.
  unfold alterar_funcionario, σ2, σ1. simpl.
  rewrite lookup_insert_eq, !insert_insert_eq. do 2 f_equal.
  rewrite <- Hat. change (com_loja_atual (loja_atual F) _)
    with (com_loja_atual (loja_atual F) F).
  by rewrite com_loja_atual_id, insert_id.
Qed.

(** X7: a transfer to the store the employee is already in only moves the
    first occurrence of the employee to the end of that store's list;
    every employee object, every other store and every instrument stay as
    they were. *)
Theorem mudar_loja_mesma_loja σ e s F L :
  pessoal σ !! e = Some F → loja_atual F = Some s →
  lojas σ !! s = Some L → e ∈ funcionarios L →
  ∃ l1 l2,
    funcionarios L = l1 ++ e :: l2 ∧ (e ∉ l1) ∧
    mudar_loja e s σ =
    (Ret tt, mkHeap (<[s := com_funcionarios (l1 ++ l2 ++ [e]) L]> (lojas σ))
                    (pessoal σ) (instrumentos σ)).
Proof.
  intros He Hat Hs Hin.
  destruct (py_remove_Some e _ Hin) as (l1 & l2 & Hl & Hl1 & Hrm).
  exists l1, l2. split_and!; [done | done |].
  rewrite (mudar_loja_mesma_loja_run σ e s F L _ He Hat Hs Hrm).
  by rewrite <- app_assoc.
Qed.

Lemma mudar_loja_mesma_loja_witness :
  ∃ l1 l2,
    funcionarios loja_sp = l1 ++ 0%nat :: l2 ∧ (0%nat ∉ l1) ∧
    mudar_loja 0 0 heap_duas_lojas =
    (Ret tt, mkHeap (<[0%nat := com_funcionarios (l1 ++ l2 ++ [0%nat]) loja_sp]>
                       (lojas heap_duas_lojas))
                    (pessoal heap_duas_lojas) (instrumentos heap_duas_lojas)).
Proof.
  eapply (mudar_loja_mesma_loja heap_duas_lojas 0 0 _ loja_sp);
    [reflexivity | reflexivity | reflexivity |].
  apply list_elem_of_here.
Defined.

Lemma mudar_loja_invariante σ e nova :
  invariante σ →
  is_Some (lojas σ !! nova) → is_Some (pessoal σ !! e) →
  ∃ σ0 σ', invariante σ0 ∧ loja_de σ0 e = None ∧
           adicionar_funcionario nova e σ0 = (Ret tt, σ') ∧
           mudar_loja e nova σ = (Ret tt, σ').
Proof.
  intros Hinv [Ln Hn] [F He].
  assert (loja_de σ e = loja_atual F) as Hde.
  { unfold loja_de. by rewrite He. }
  destruct (loja_atual F) as [old|] eqn:Hat.
  - assert (e ∈ quadro σ old) as Hin by (by apply Hinv).
    unfold quadro in Hin.
    destruct (lojas σ !! old) as [Lo|] eqn:Ho; [|by apply elem_of_nil in Hin].
    destruct (mudar_loja_com_loja σ e old nova F Lo Ln He Hat Ho Hin Hn)
      as (σ1 & σ2 & H1 & H2 & H12).
    destruct (invariante_remover _ _ _ _ _ Hinv H1) as [Hinv1 Hnone].
    by exists σ1, σ2.
  - exists σ. eexists. split_and!; [done | done | |].
    + by eapply adicionar_funcionario_run.
    + by eapply mudar_loja_sem_loja.
Qed.

(** X8: where every employee is in the list of exactly its [loja_atual],
    once, transferring an employee twice in a row to the same store gives
    the same outcome and heap as transferring it once. *)
Theorem mudar_loja_idempotente σ e nova :
  invariante σ →
  is_Some (lojas σ !! nova) → is_Some (pessoal σ !! e) →
  (mudar_loja e nova;; mudar_loja e nova) σ = mudar_loja e nova σ.
Proof.
  intros Hinv Hn He.
  destruct (mudar_loja_invariante σ e nova Hinv Hn He)
    as (σ0 & σ' & Hinv0 & Hnone & Hadd & Hm).
  rewrite (bind_ret _ _ σ tt σ') by done. rewrite Hm.
  destruct (adicionar_funcionario_obs _ _ _ _ _ Hadd) as [Hq Hl].
  specialize (Hq nova). specialize (Hl e).
  rewrite decide_True in Hq by done. rewrite decide_True in Hl by done.
  assert (e ∉ quadro σ0 nova) as Hfora.
  { intros Hin. apply Hinv0 in Hin. congruence. }
  unfold quadro in Hq at 1. unfold loja_de in Hl.
  destruct (lojas σ' !! nova) as [L'|] eqn:HL'; simpl in Hq;
    [|by destruct (quadro σ0 nova)].
  destruct (pessoal σ' !! e) as [F'|] eqn:HF'; simpl in Hl; [|done].
  rewrite (mudar_loja_mesma_loja_run σ' e nova F' L' (quadro σ0 nova));
    [| done | done | done | by rewrite Hq; apply py_remove_snoc].
  rewrite <- Hq, com_funcionarios_id, insert_id by done.
  by rewrite heap_eta.
Qed.

Lemma mudar_loja_idempotente_witness :
  (mudar_loja 1 1;; mudar_loja 1 1) heap_duas_lojas = mudar_loja 1 1 heap_duas_lojas.
Proof.
  apply (mudar_loja_idempotente heap_duas_lojas 1 1).
  - apply alcancavel_invariante, alcancavel_executar_todas;
      [constructor | vm_compute; reflexivity].
  - by eexists.
  - by eexists.
Defined.

(** ** Queries after updates *)

Lemma cargos_de_ext σ σ' l :
  (∀ e, cargo <$> pessoal σ' !! e = cargo <$> pessoal σ !! e) →
  cargos_de σ' l = cargos_de σ l.
Proof.
  intros H. unfold cargos_de. induction l as [|e l IH]; [done|].
  csimpl. by rewrite H, IH.
Qed.

Lemma cargos_de_app σ l1 l2 :
  cargos_de σ (l1 ++ l2) = cargos_de σ l1 ++ cargos_de σ l2.
Proof. unfold cargos_de. apply omap_app. Qed.

Lemma cargos_de_um σ e F :
  pessoal σ !! e = Some F → cargos_de σ [e] = [cargo F].
Proof. intros He. unfold cargos_de. simpl. by rewrite He. Qed.

Lemma alterar_loja_atual_cargo σ e F a e' :
  pessoal σ !! e = Some F →
  cargo <$> <[e := com_loja_atual a F]> (pessoal σ) !! e' =
  cargo <$> pessoal σ !! e'.
Proof.
  intros He. rewrite lookup_insert. case_decide; subst; [|done].
  by rewrite He.
Qed.

Lemma vezes_app k l1 l2 : vezes k (l1 ++ l2) = (vezes k l1 + vezes k l2)%nat.
Proof. unfold vezes. by rewrite filter_app, length_app. Qed.

Lemma vezes_cons k c l :
  vezes k (c :: l) = ((if decide (c = k) then 1 else 0) + vezes k l)%nat.
Proof. unfold vezes. rewrite filter_cons. by case_decide. Qed.

(** X9: after [adicionar_funcionario], the role count of the store is the
    one before with the new employee's role incremented, or entered with
    count 1 at the end of the dict when no employee of the store had that
    role; the other roles and the order of the keys are as before. *)
Theorem contagem_apos_adicionar σ s e L F :
  lojas σ !! s = Some L → pessoal σ !! e = Some F →
  (∀ x, x ∈ funcionarios L → is_Some (pessoal σ !! x)) →
  ∃ σ' d d',
    adicionar_funcionario s e σ = (Ret tt, σ') ∧
    consultar_funcionarios_por_cargo s σ = (Ret d, σ) ∧
    consultar_funcionarios_por_cargo s σ' = (Ret d', σ') ∧
    d' = dict_set (cargo F) (default 0 (dict_get (cargo F) d) + 1) d ∧
    ∀ k, dict_get k d' =
         if decide (k = cargo F) then Some (default 0 (dict_get k d) + 1)
         else dict_get k d.
Proof.
  intros Hs He Hl.
  pose proof (adicionar_funcionario_run σ s e L F Hs He) as Hadd.
  set (σ' := mkHeap _ _ _) in Hadd.
  assert (lojas σ' !! s = Some (com_funcionarios (funcionarios L ++ [e]) L)) as Hs'.
  { unfold σ'. simpl. apply lookup_insert_eq. }
  assert (∀ l, cargos_de σ' l = cargos_de σ l) as Hcg.
  { intros l. apply cargos_de_ext. intros x. unfold σ'. simpl.
    by apply alterar_loja_atual_cargo. }
  assert (∀ x, x ∈ funcionarios L ++ [e] → is_Some (pessoal σ' !! x)) as Hl'.
  { intros x Hx. unfold σ'. simpl. rewrite lookup_insert.
    case_decide; [by eexists|].
    apply elem_of_app in Hx as [Hx | Hx%list_elem_of_singleton]; [auto | done]. }
  pose proof (consultar_funcionarios_por_cargo_run σ s L Hs Hl) as Hd.
  pose proof (consultar_funcionarios_por_cargo_run σ' s _ Hs' Hl') as Hd'.
  simpl in Hd'. rewrite Hcg, cargos_de_app, (cargos_de_um σ e F He) in Hd'.
  set (cs := cargos_de σ (funcionarios L)) in *.
  assert (contagem (cs ++ [cargo F]) =
          dict_set (cargo F) (default 0 (dict_get (cargo F) (contagem cs)) + 1)
                   (contagem cs)) as Hsnoc.
  { rewrite contagem_snoc, dict_get_contagem. case_decide as Hin; [done|].
    apply vezes_zero in Hin. by rewrite Hin. }
  exists σ', (contagem cs), (contagem (cs ++ [cargo F])).
  split_and!; [done | done | done | done |].
  intros k. rewrite !dict_get_contagem, vezes_snoc.
  destruct (decide (k = cargo F)) as [-> | Hne].
  - rewrite decide_True by (apply elem_of_app; right; apply list_elem_of_here).
    rewrite decide_True by done.
    case_decide as Hin; simpl; [f_equal; lia|].
    apply vezes_zero in Hin. by rewrite Hin.
  - rewrite (decide_False (P := cargo F = k)) by done.
    rewrite Nat.add_0_r.
    destruct (decide (k ∈ cs)) as [Hin | Hin].
    + rewrite decide_True; [done | apply elem_of_app; by left].
    + rewrite decide_False; [done|].
      rewrite elem_of_app, list_elem_of_singleton. naive_solver.
Qed.

Lemma contagem_apos_adicionar_witness :
  ∃ σ' d d',
    adicionar_funcionario 0 1 heap_duas_lojas = (Ret tt, σ') ∧
    consultar_funcionarios_por_cargo 0 heap_duas_lojas = (Ret d, heap_duas_lojas) ∧
    consultar_funcionarios_por_cargo 0 σ' = (Ret d', σ') ∧
    d' = dict_set "Gerente" (default 0 (dict_get "Gerente" d) + 1) d ∧
    ∀ k, dict_get k d' =
         if decide (k = "Gerente") then Some (default 0 (dict_get k d) + 1)
         else dict_get k d.
Proof.
  apply (contagem_apos_adicionar heap_duas_lojas 0 1 loja_sp
           (mkFuncionario "Padre Kelmon" "987.654.321-00" 3000%float "Gerente"
                          (Some 0%nat)));
    [reflexivity | reflexivity | apply heap_duas_lojas_fechado_0].
Defined.

(** X10: after [remover_funcionario] of an employee of the store, the
    role count of the store has the employee's role decremented, and the
    role is no longer a key when the employee was the only one with it;
    the counts of the other roles are as before. *)
Theorem contagem_apos_remover σ s e L F :
  lojas σ !! s = Some L → pessoal σ !! e = Some F → e ∈ funcionarios L →
  (∀ x, x ∈ funcionarios L → is_Some (pessoal σ !! x)) →
  ∃ σ' d d' v,
    remover_funcionario s e σ = (Ret tt, σ') ∧
    consultar_funcionarios_por_cargo s σ = (Ret d, σ) ∧
    consultar_funcionarios_por_cargo s σ' = (Ret d', σ') ∧
    dict_get (cargo F) d = Some v ∧ (1 ≤ v)%Z ∧
    ∀ k, dict_get k d' =
         if decide (k = cargo F)
         then (if decide (v = 1) then None else Some (v - 1))
         else dict_get k d.
Proof.
  intros Hs He Hin Hl.
  destruct (py_remove_Some e _ Hin) as (l1 & l2 & HL & _ & Hrm).
  pose proof (remover_funcionario_run σ s e L F _ Hs He Hrm) as Hrun.
  set (σ' := mkHeap _ _ _) in Hrun.
  assert (lojas σ' !! s = Some (com_funcionarios (l1 ++ l2) L)) as Hs'.
  { unfold σ'. simpl. apply lookup_insert_eq. }
  assert (∀ l, cargos_de σ' l = cargos_de σ l) as Hcg.
  { intros l. apply cargos_de_ext. intros x. unfold σ'. simpl.
    by apply alterar_loja_atual_cargo. }
  assert (∀ x, x ∈ l1 ++ l2 → is_Some (pessoal σ' !! x)) as Hl'.
  { intros x Hx. unfold σ'. simpl. rewrite lookup_insert.
    case_decide; [by eexists|]. apply Hl. rewrite HL.
    rewrite elem_of_app in Hx. rewrite elem_of_app, elem_of_cons. naive_solver. }
  pose proof (consultar_funcionarios_por_cargo_run σ s L Hs Hl) as Hd.
  pose proof (consultar_funcionarios_por_cargo_run σ' s _ Hs' Hl') as Hd'.
  simpl in Hd'. rewrite Hcg, cargos_de_app in Hd'.
  rewrite HL, cargos_de_app in Hd.
  change (e :: l2) with ([e] ++ l2) in Hd.
  rewrite cargos_de_app, (cargos_de_um σ e F He) in Hd. simpl in Hd.
  set (c1 := cargos_de σ l1) in *. set (c2 := cargos_de σ l2) in *.
  exists σ', (contagem (c1 ++ cargo F :: c2)), (contagem (c1 ++ c2)),
         (Z.of_nat (S (vezes (cargo F) (c1 ++ c2)))).
  split_and!; [done | done | done | | lia |].
  - rewrite dict_get_contagem.
    rewrite decide_True
      by (apply elem_of_app; right; apply list_elem_of_here).
    rewrite !vezes_app, vezes_cons, decide_True by done. do 2 f_equal. lia.
  - intros k. rewrite !dict_get_contagem.
    destruct (decide (k = cargo F)) as [-> | Hne].
    + destruct (decide (cargo F ∈ c1 ++ c2)) as [Hc | Hc].
      * rewrite decide_False; [f_equal; lia|].
        destruct (vezes (cargo F) (c1 ++ c2)) eqn:Hv; [|lia].
        by apply vezes_zero in Hv.
      * apply vezes_zero in Hc. rewrite Hc. by rewrite decide_True.
    + rewrite !vezes_app, vezes_cons, (decide_False (P := cargo F = k)) by done.
      destruct (decide (k ∈ c1 ++ c2)) as [Hc | Hc].
      * rewrite decide_True; [done|].
        rewrite elem_of_app in Hc. rewrite elem_of_app, elem_of_cons. naive_solver.
      * rewrite decide_False; [done|].
        rewrite elem_of_app in Hc. rewrite elem_of_app, elem_of_cons. naive_solver.
Qed.

Lemma contagem_apos_remover_witness :
  ∃ σ' d d' v,
    remover_funcionario 0 1 heap_duas_lojas = (Ret tt, σ') ∧
    consultar_funcionarios_por_cargo 0 heap_duas_lojas = (Ret d, heap_duas_lojas) ∧
    consultar_funcionarios_por_cargo 0 σ' = (Ret d', σ') ∧
    dict_get "Gerente" d = Some v ∧ (1 ≤ v)%Z ∧
    ∀ k, dict_get k d' =
         if decide (k = "Gerente")
         then (if decide (v = 1) then None else Some (v - 1))
         else dict_get k d.
Proof.
  apply (contagem_apos_remover heap_duas_lojas 0 1 loja_sp
           (mkFuncionario "Padre Kelmon" "987.654.321-00" 3000%float "Gerente"
                          (Some 0%nat)));
    [reflexivity | reflexivity | | apply heap_duas_lojas_fechado_0].
  apply list_elem_of_further, list_elem_of_here.
Defined.








(** ** The queries and the order of the lists *)

Lemma quantos_Permutation p σ l1 l2 :
  l1 ≡ₚ l2 → quantos p σ l1 = quantos p σ l2.
Proof. intros H. unfold quantos. by rewrite H. Qed.

Lemma vezes_Permutation k l1 l2 : l1 ≡ₚ l2 → vezes k l1 = vezes k l2.
Proof. intros H. unfold vezes. by rewrite H. Qed.

Lemma cargos_de_Permutation σ l1 l2 :
  l1 ≡ₚ l2 → cargos_de σ l1 ≡ₚ cargos_de σ l2.
Proof. intros H. unfold cargos_de. by rewrite H. Qed.

(** X13: the queries do not depend on the order of the lists they scan.
    Two stores whose stocks hold the same instruments in different orders
    get the same instrument count; two stores whose lists hold the same
    employees in different orders get role counts with the same keys and
    the same value for every key, though the keys may come in a different
    order. *)
Theorem consultas_e_ordem σ s1 s2 L1 L2 :
  lojas σ !! s1 = Some L1 → lojas σ !! s2 = Some L2 →
  (∀ i, i ∈ estoque L1 → is_Some (instrumentos σ !! i)) →
  (∀ e, e ∈ funcionarios L1 → is_Some (pessoal σ !! e)) →
  (estoque L1 ≡ₚ estoque L2 →
     consultar_instrumentos s1 σ = consultar_instrumentos s2 σ) ∧
  (funcionarios L1 ≡ₚ funcionarios L2 →
     ∃ d1 d2,
       consultar_funcionarios_por_cargo s1 σ = (Ret d1, σ) ∧
       consultar_funcionarios_por_cargo s2 σ = (Ret d2, σ) ∧
       chaves d1 ≡ₚ chaves d2 ∧
       ∀ k, dict_get k d1 = dict_get k d2).
Proof.
  intros H1 H2 Hi He. split.
  - intros Hp.
    rewrite (consultar_instrumentos_run σ s1 L1 H1 Hi).
    rewrite (consultar_instrumentos_run σ s2 L2 H2)
      by (intros i Hin; apply Hi; by rewrite Hp).
    by rewrite !(quantos_Permutation _ σ _ _ Hp).
  - intros Hp. eexists _, _. split_and!.
    + by apply consultar_funcionarios_por_cargo_run.
    + apply (consultar_funcionarios_por_cargo_run σ s2 L2 H2).
      intros e Hin. apply He. by rewrite Hp.
    + pose proof (cargos_de_Permutation σ _ _ Hp) as Hc.
      unfold chaves, contagem. rewrite <- !list_fmap_compose.
      rewrite !list_fmap_id.
      apply NoDup_Permutation; [apply primeiros_NoDup..|].
      intros k. rewrite !primeiros_elem. by rewrite Hc.
    + intros k. rewrite !dict_get_contagem.
      pose proof (cargos_de_Permutation σ _ _ Hp) as Hc.
      rewrite (vezes_Permutation k _ _ Hc).
      destruct (decide (k ∈ cargos_de σ (funcionarios L1))) as [Hin | Hin].
      * rewrite decide_True; [done | by rewrite <- Hc].
      * rewrite decide_False; [done | by rewrite <- Hc].
Qed.

Lemma heap_espelhado_fechado_0 :
  (∀ i, i ∈ estoque loja_sp → is_Some (instrumentos heap_espelhado !! i)) ∧
  (∀ e, e ∈ funcionarios loja_sp → is_Some (pessoal heap_espelhado !! e)).
Proof.
  split; intros x Hx.
  - apply elem_of_cons in Hx as [-> | Hx]; [by eexists|].
    apply elem_of_cons in Hx as [-> | Hx]; [by eexists|].
    by apply elem_of_nil in Hx.
  - apply elem_of_cons in Hx as [-> | Hx]; [by eexists|].
    apply elem_of_cons in Hx as [-> | Hx]; [by eexists|].
    by apply elem_of_nil in Hx.
Defined.

Lemma consultas_e_ordem_witness :
  consultar_instrumentos 0 heap_espelhado = consultar_instrumentos 1 heap_espelhado ∧
  ∃ d1 d2,
    consultar_funcionarios_por_cargo 0 heap_espelhado = (Ret d1, heap_espelhado) ∧
    consultar_funcionarios_por_cargo 1 heap_espelhado = (Ret d2, heap_espelhado) ∧
    chaves d1 ≡ₚ chaves d2 ∧
    ∀ k, dict_get k d1 = dict_get k d2.
Proof.
  destruct heap_espelhado_fechado_0 as [Hi He].
  destruct (consultas_e_ordem heap_espelhado 0 1 loja_sp loja_rj_espelhada
              eq_refl eq_refl Hi He) as [H1 H2].
  split; [apply H1 | apply H2]; apply Permutation_swap.
Defined.

(** The key order does differ in that heap. *)
Example consultas_e_ordem_chaves :
  (consultar_funcionarios_por_cargo 0 heap_espelhado).1 =
    Ret [("Vendedor", 1); ("Gerente", 1)] ∧
  (consultar_funcionarios_por_cargo 1 heap_espelhado).1 =
    Ret [("Gerente", 1); ("Vendedor", 1)].
Proof. split; vm_compute; reflexivity. Qed.

(** ** New objects *)

(** X14: in every heap that well-typed statements reach, [Loja(...)]
    returns a reference not in use, to a store with no employee and no
    stock that no employee has as [loja_atual]; the existing objects are
    as before, and on the new store [consultar_instrumentos] returns the
    three labels at 0 and [consultar_funcionarios_por_cargo] the empty
    dict. *)
Theorem nova_loja_vazia σ loc :
  alcancavel bem_tipada σ →
  ∃ r σ', nova_loja loc σ = (Ret r, σ') ∧
          lojas σ !! r = None ∧
          quadro σ' r = [] ∧ estoque_de σ' r = [] ∧
          (∀ e, loja_de σ' e ≠ Some r) ∧
          (∀ s, s ≠ r → lojas σ' !! s = lojas σ !! s) ∧
          pessoal σ' = pessoal σ ∧ instrumentos σ' = instrumentos σ ∧
          consultar_instrumentos r σ' =
            (Ret [("Baixo", 0); ("Guitarra", 0); ("Violão", 0)], σ') ∧
          consultar_funcionarios_por_cargo r σ' = (Ret [], σ').
Proof.
  intros Hσ. pose proof (alcancavel_semi_consistente σ Hσ) as Hsc.
  pose proof (is_fresh (dom (lojas σ))) as Hfr.
  apply not_elem_of_dom in Hfr.
  eexists _, _. split; [reflexivity|].
  set (r := fresh (dom (lojas σ))) in *. simpl.
  unfold quadro, estoque_de, loja_de. simpl. rewrite !lookup_insert_eq. simpl.
  split_and!; [done | done | done | | | done | done | |].
  - intros e He. apply Hsc in He. unfold quadro in He. rewrite Hfr in He.
    by apply elem_of_nil in He.
  - intros s Hne. by rewrite lookup_insert_ne.
  - unfold consultar_instrumentos. executa. by rewrite lookup_insert_eq.
  - unfold consultar_funcionarios_por_cargo. executa.
    by rewrite lookup_insert_eq.
Qed.

Lemma nova_loja_vazia_witness :
  ∃ r σ', nova_loja "Xique-Xique" heap_duas_lojas = (Ret r, σ') ∧
          lojas heap_duas_lojas !! r = None ∧
          quadro σ' r = [] ∧ estoque_de σ' r = [] ∧
          (∀ e, loja_de σ' e ≠ Some r) ∧
          (∀ s, s ≠ r → lojas σ' !! s = lojas heap_duas_lojas !! s) ∧
          pessoal σ' = pessoal heap_duas_lojas ∧
          instrumentos σ' = instrumentos heap_duas_lojas ∧
          consultar_instrumentos r σ' =
            (Ret [("Baixo", 0); ("Guitarra", 0); ("Violão", 0)], σ') ∧
          consultar_funcionarios_por_cargo r σ' = (Ret [], σ').
Proof.
  apply (nova_loja_vazia heap_duas_lojas "Xique-Xique").
  apply alcancavel_executar_todas; [constructor | vm_compute; reflexivity].
Defined.

(** X15: in every heap that well-typed statements reach, a new employee
    has [loja_atual] [None] and is in the list of no store, and a new
    instrument is in the stock of no store; the objects that existed are
    as before. *)
Theorem novos_objetos_soltos σ :
  alcancavel bem_tipada σ →
  (∀ nome cpf_ sal cargo_, ∃ r σ',
      novo_funcionario nome cpf_ sal cargo_ σ = (Ret r, σ') ∧
      loja_de σ' r = None ∧ (∀ s, r ∉ quadro σ' s) ∧
      lojas σ' = lojas σ ∧ instrumentos σ' = instrumentos σ ∧
      (∀ e, e ≠ r → pessoal σ' !! e = pessoal σ !! e)) ∧
  (∀ ins, ∃ r σ',
      novo_instrumento ins σ = (Ret r, σ') ∧
      (∀ s, r ∉ estoque_de σ' s) ∧
      lojas σ' = lojas σ ∧ pessoal σ' = pessoal σ ∧
      (∀ i, i ≠ r → instrumentos σ' !! i = instrumentos σ !! i)).
Proof.
  intros Hσ. pose proof (alcancavel_fechado σ Hσ) as Hf. split.
  - intros nome cpf_ sal cargo_.
    pose proof (is_fresh (dom (pessoal σ))) as Hfr.
    apply not_elem_of_dom in Hfr.
    eexists _, _. split; [reflexivity|].
    set (r := fresh (dom (pessoal σ))) in *. simpl.
    unfold loja_de. simpl. rewrite lookup_insert_eq. simpl.
    split_and!; [done | | done | done |].
    + intros s Hin. apply (Hf s) in Hin. rewrite Hfr in Hin.
      by destruct Hin.
    + intros e Hne. by rewrite lookup_insert_ne.
  - intros ins.
    pose proof (is_fresh (dom (instrumentos σ))) as Hfr.
    apply not_elem_of_dom in Hfr.
    eexists _, _. split; [reflexivity|].
    set (r := fresh (dom (instrumentos σ))) in *. simpl.
    split_and!; [| done | done |].
    + intros s Hin. apply (Hf s) in Hin. rewrite Hfr in Hin.
      by destruct Hin.
    + intros i Hne. by rewrite lookup_insert_ne.
Qed.

Lemma novos_objetos_soltos_witness :
  (∀ nome cpf_ sal cargo_, ∃ r σ',
      novo_funcionario nome cpf_ sal cargo_ heap_duas_lojas = (Ret r, σ') ∧
      loja_de σ' r = None ∧ (∀ s, r ∉ quadro σ' s) ∧
      lojas σ' = lojas heap_duas_lojas ∧
      instrumentos σ' = instrumentos heap_duas_lojas ∧
      (∀ e, e ≠ r → pessoal σ' !! e = pessoal heap_duas_lojas !! e)) ∧
  (∀ ins, ∃ r σ',
      novo_instrumento ins heap_duas_lojas = (Ret r, σ') ∧
      (∀ s, r ∉ estoque_de σ' s) ∧
      lojas σ' = lojas heap_duas_lojas ∧ pessoal σ' = pessoal heap_duas_lojas ∧
      (∀ i, i ≠ r → instrumentos σ' !! i = instrumentos heap_duas_lojas !! i)).
Proof.
  apply (novos_objetos_soltos heap_duas_lojas).
  apply alcancavel_executar_todas; [constructor | vm_compute; reflexivity].
Defined.

(** ** What the statements leave alone *)

Lemma bind_rel (R : Heap → Heap → Prop) `{!Reflexive R, !Transitive R}
    {A B} (m : M A) (k : A → M B) σ :
  R σ (m σ).2 → (∀ a σ1, R σ1 (k a σ1).2) → R σ ((m ≫= k) σ).2.
Proof.
  intros Hm Hk. unfold mbind, M_bind, bind.
  destruct (m σ) as [[a|x] σ1]; simpl in *; [|done].
  etrans; [exact Hm | apply Hk].
Qed.

#[local] Instance mesmo_estoque_refl : Reflexive mesmo_estoque.
Proof. by intros σ. Qed.

#[local] Instance mesmo_estoque_trans : Transitive mesmo_estoque.
Proof.
  intros σ1 σ2 σ3 [H1 H1'] [H2 H2']. split.
  - intros s. by rewrite H2, H1.
  - by rewrite H2', H1'.
Qed.

#[local] Instance conserva_refl : Reflexive conserva.
Proof. intros σ. split_and!; eauto. Qed.

#[local] Instance conserva_trans : Transitive conserva.
Proof.
  intros σ1 σ2 σ3 (Hp1 & Hl1 & Hi1) (Hp2 & Hl2 & Hi2). split_and!.
  - intros e F HF. destruct (Hp1 e F HF) as (F2 & HF2 & Hd2).
    destruct (Hp2 e F2 HF2) as (F3 & HF3 & Hd3).
    exists F3. split; [done | congruence].
  - intros s L HL. destruct (Hl1 s L HL) as (L2 & HL2 & Hloc2 & Hviz2).
    destruct (Hl2 s L2 HL2) as (L3 & HL3 & Hloc3 & Hviz3).
    exists L3. split_and!; [done | congruence | congruence].
  - eauto.
Qed.

Lemma mesmo_estoque_alterar_loja f s σ :
  (∀ L, estoque (f L) = estoque L) →
  mesmo_estoque σ (alterar_loja f s σ).2.
Proof.
  intros Hf. unfold alterar_loja.
  destruct (lojas σ !! s) as [L|] eqn:Hs; simpl; [|done].
  split; [|done]. intros s'. unfold estoque_de. simpl.
  rewrite lookup_insert. case_decide; subst; [|done].
  simpl. by rewrite Hf, Hs.
Qed.

Lemma mesmo_estoque_alterar_funcionario f e σ :
  mesmo_estoque σ (alterar_funcionario f e σ).2.
Proof. unfold alterar_funcionario. by destruct (pessoal σ !! e). Qed.

Lemma conserva_alterar_loja f s σ :
  (∀ L, localizacao (f L) = localizacao L ∧
        loja_mais_proxima (f L) = loja_mais_proxima L) →
  conserva σ (alterar_loja f s σ).2.
Proof.
  intros Hf. unfold alterar_loja.
  destruct (lojas σ !! s) as [L|] eqn:Hs; simpl; [|done].
  split_and!; simpl; [eauto | | eauto].
  intros s' L' HL'. rewrite lookup_insert. case_decide; subst; [|eauto].
  exists (f L'). rewrite Hs in HL'. injection HL' as ->.
  split; [done | apply Hf].
Qed.

Lemma conserva_alterar_funcionario f e σ :
  (∀ F, dados (f F) = dados F) →
  conserva σ (alterar_funcionario f e σ).2.
Proof.
  intros Hf. unfold alterar_funcionario.
  destruct (pessoal σ !! e) as [F|] eqn:He; simpl; [|done].
  split_and!; simpl; [| eauto | eauto].
  intros e' F' HF'. rewrite lookup_insert. case_decide; subst; [|eauto].
  exists (f F'). rewrite He in HF'. injection HF' as ->. split; [done | apply Hf].
Qed.

Lemma rel_ler_loja (R : Heap → Heap → Prop) `{!Reflexive R} s σ :
  R σ (ler_loja s σ).2.
Proof. unfold ler_loja. by destruct (lojas σ !! s). Qed.

Lemma rel_ler_funcionario (R : Heap → Heap → Prop) `{!Reflexive R} e σ :
  R σ (ler_funcionario e σ).2.
Proof. unfold ler_funcionario. by destruct (pessoal σ !! e). Qed.

Lemma mesmo_estoque_adicionar s e σ :
  mesmo_estoque σ (adicionar_funcionario s e σ).2.
Proof.
  unfold adicionar_funcionario.
  apply (bind_rel mesmo_estoque); [by apply mesmo_estoque_alterar_loja|].
  intros _ σ1. apply mesmo_estoque_alterar_funcionario.
Qed.

Lemma mesmo_estoque_remover s e σ :
  mesmo_estoque σ (remover_funcionario s e σ).2.
Proof.
  unfold remover_funcionario.
  apply (bind_rel mesmo_estoque); [apply (rel_ler_loja mesmo_estoque)|].
  intros L σ1. destruct (py_remove e (funcionarios L)); [|done].
  apply (bind_rel mesmo_estoque); [by apply mesmo_estoque_alterar_loja|].
  intros _ σ2. apply mesmo_estoque_alterar_funcionario.
Qed.

Lemma mesmo_estoque_mudar e s σ :
  mesmo_estoque σ (mudar_loja e s σ).2.
Proof.
  unfold mudar_loja.
  apply (bind_rel mesmo_estoque); [apply (rel_ler_funcionario mesmo_estoque)|].
  intros F σ1. apply (bind_rel mesmo_estoque).
  { destruct (loja_atual F); [apply mesmo_estoque_remover | done]. }
  intros _ σ2. apply (bind_rel mesmo_estoque); [apply mesmo_estoque_adicionar|].
  intros _ σ3. apply mesmo_estoque_alterar_funcionario.
Qed.

(** X16: the two associations of a store are independent.  A statement
    that moves an employee ([adicionar_funcionario], [remover_funcionario],
    [mudar_loja]) changes no stock and no instrument, whatever its
    arguments and whether it returns or raises; every other statement
    changes no list of employees and no [loja_atual]. *)
Theorem funcionarios_e_estoque_independentes c σ :
  if move_funcionario c
  then (∀ s, estoque_de (executar c σ) s = estoque_de σ s) ∧
       instrumentos (executar c σ) = instrumentos σ
  else (∀ s, quadro (executar c σ) s = quadro σ s) ∧
       (∀ e, loja_de (executar c σ) e = loja_de σ e).
Proof.
  destruct (move_funcionario c) eqn:Hmv; [|by apply executar_neutro].
  destruct c; try discriminate; simpl.
  - apply mesmo_estoque_adicionar.
  - apply mesmo_estoque_remover.
  - apply mesmo_estoque_mudar.
Qed.

Lemma conserva_adicionar s e σ :
  conserva σ (adicionar_funcionario s e σ).2.
Proof.
  unfold adicionar_funcionario.
  apply (bind_rel conserva); [by apply conserva_alterar_loja|].
  intros _ σ1. by apply conserva_alterar_funcionario.
Qed.

Lemma conserva_remover s e σ :
  conserva σ (remover_funcionario s e σ).2.
Proof.
  unfold remover_funcionario.
  apply (bind_rel conserva); [apply (rel_ler_loja conserva)|].
  intros L σ1. destruct (py_remove e (funcionarios L)); [|done].
  apply (bind_rel conserva); [by apply conserva_alterar_loja|].
  intros _ σ2. by apply conserva_alterar_funcionario.
Qed.

Lemma conserva_mudar e s σ :
  conserva σ (mudar_loja e s σ).2.
Proof.
  unfold mudar_loja.
  apply (bind_rel conserva); [apply (rel_ler_funcionario conserva)|].
  intros F σ1. apply (bind_rel conserva).
  { destruct (loja_atual F); [apply conserva_remover | done]. }
  intros _ σ2. apply (bind_rel conserva); [apply conserva_adicionar|].
  intros _ σ3. by apply conserva_alterar_funcionario.
Qed.

(** X17: no constructor and no method ever deletes an object or changes
    what the constructors set: after any such statement, returning or
    raising, every employee is still there with the same name, CPF,
    salary and role, every store with the same location and nearest
    store, and every instrument exactly as it was. *)
Theorem objetos_conservados c σ :
  chama_metodo c = true → conserva σ (executar c σ).
Proof.
  intros Hc. destruct c; try discriminate; simpl.
  - pose proof (is_fresh (dom (lojas σ))) as Hfr.
    apply not_elem_of_dom in Hfr.
    split_and!; simpl; [eauto | | eauto].
    intros s L HL. exists L. rewrite lookup_insert_ne; [done|].
    intros <-. congruence.
  - pose proof (is_fresh (dom (pessoal σ))) as Hfr.
    apply not_elem_of_dom in Hfr.
    split_and!; simpl; [| eauto | eauto].
    intros e F HF. exists F. rewrite lookup_insert_ne; [done|].
    intros <-. congruence.
  - pose proof (is_fresh (dom (instrumentos σ))) as Hfr.
    apply not_elem_of_dom in Hfr.
    split_and!; simpl; [eauto | eauto |].
    intros i x Hx. rewrite lookup_insert_ne; [done|].
    intros <-. congruence.
  - apply conserva_adicionar.
  - apply conserva_remover.
  - unfold adicionar_instrumento. by apply conserva_alterar_loja.
  - unfold remover_instrumento.
    apply (bind_rel conserva); [apply (rel_ler_loja conserva)|].
    intros L σ1. destruct (py_remove i (estoque L)); [|done].
    by apply conserva_alterar_loja.
  - apply conserva_mudar.
  - by rewrite consultar_instrumentos_heap.
  - by rewrite consultar_funcionarios_por_cargo_heap.
  - pose proof (is_fresh (dom (instrumentos σ))) as Hfr.
    apply not_elem_of_dom in Hfr.
    split_and!; simpl; [eauto | eauto |].
    intros i x Hx. rewrite lookup_insert_ne; [done|].
    intros <-. congruence.
Qed.

Lemma objetos_conservados_witness :
  conserva heap_duas_lojas (executar (MudarLoja 1 1) heap_duas_lojas).
Proof. by apply (objetos_conservados (MudarLoja 1 1) heap_duas_lojas). Defined.

(** ** Descriptions *)

(** X18: the description of an instrument starts with the label under
    which [consultar_instrumentos] counts it: the loop body increments
    the entry of exactly that key and leaves the two others. *)
Theorem info_rotulo σ i (ins : Instrumento) a b c :
  instrumentos σ !! i = Some (DaClasse ins) →
  ∃ k resto d',
    info ins = k +:+ " " +:+ resto ∧
    contar_tipo i [("Baixo", a); ("Guitarra", b); ("Violão", c)] σ = (Ret d', σ) ∧
    chaves d' = ["Baixo"; "Guitarra"; "Violão"] ∧
    ∀ k', dict_get k' d' =
          if decide (k' = k)
          then (λ v, v + 1) <$> dict_get k' [("Baixo", a); ("Guitarra", b); ("Violão", c)]
          else dict_get k' [("Baixo", a); ("Guitarra", b); ("Violão", c)].
Proof.
  intros Hi. rewrite (contar_tipo_run σ i ins a b c Hi).
  destruct ins as [m mo p n f | m mo p n t | m mo p n t].
  - exists "Baixo". eexists _, _. split_and!; [reflexivity | done | done |].
    intros k'. simpl. rewrite !Z.add_0_r. by repeat case_decide; subst.
  - exists "Guitarra". eexists _, _. split_and!; [reflexivity | done | done |].
    intros k'. simpl. rewrite !Z.add_0_r. by repeat case_decide; subst.
  - exists "Violão". eexists _, _. split_and!; [reflexivity | done | done |].
    intros k'. simpl. rewrite !Z.add_0_r. by repeat case_decide; subst.
Qed.

Lemma info_rotulo_witness :
  ∃ k resto d',
    info (Guitarra "Gibson" "Les Paul" 7000%float 6 "Humbucker")
      = k +:+ " " +:+ resto ∧
    contar_tipo 1 [("Baixo", 0); ("Guitarra", 0); ("Violão", 0)] heap_duas_lojas
      = (Ret d', heap_duas_lojas) ∧
    chaves d' = ["Baixo"; "Guitarra"; "Violão"] ∧
    ∀ k', dict_get k' d' =
          if decide (k' = k)
          then (λ v, v + 1) <$> dict_get k' [("Baixo", 0); ("Guitarra", 0); ("Violão", 0)]
          else dict_get k' [("Baixo", 0); ("Guitarra", 0); ("Violão", 0)].
Proof. apply (info_rotulo heap_duas_lojas 1). reflexivity. Defined.

Lemma lista_de_append s t :
  String.list_ascii_of_string (s +:+ t) =
  String.list_ascii_of_string s ++ String.list_ascii_of_string t.
Proof. induction s as [|a s IH]; simpl; [done | by rewrite IH]. Qed.

Lemma sufixos_distintos s1 s2 : s1 +:+ "fretless" ≠ s2 +:+ "com trastes".
Proof.
  intros H. apply (f_equal String.list_ascii_of_string) in H.
  rewrite !lista_de_append in H. apply (f_equal (@rev _)) in H.
  rewrite !rev_app_distr in H. simpl in H. discriminate.
Qed.

(** X19: equal descriptions come from instruments of the same class, and
    for two basses from the same [fretless] flag: the class, and whether
    a bass has frets, can be read off [info]. *)
Theorem info_determina_classe ins1 ins2 :
  info ins1 = info ins2 → mesma_classe ins1 ins2.
Proof.
  destruct ins1 as [m1 mo1 p1 n1 f1 | m1 mo1 p1 n1 t1 | m1 mo1 p1 n1 t1],
           ins2 as [m2 mo2 p2 n2 f2 | m2 mo2 p2 n2 t2 | m2 mo2 p2 n2 t2];
    try done; try (simpl; discriminate).
  unfold info, mesma_classe. intros H.
  apply (f_equal String.list_ascii_of_string) in H.
  rewrite !lista_de_append in H. apply (f_equal (@rev _)) in H.
  rewrite !rev_app_distr in H.
  destruct f1, f2; try done; simpl in H; discriminate.
Qed.

Lemma info_determina_classe_witness :
  mesma_classe (Baixo "Fender" "Jazz Bass" 5000%float 4 false)
               (Baixo "Fender" "Jazz Bass" 4500%float 4 false).
Proof. by apply info_determina_classe. Defined.

(** The run of [main]: it returns normally with these printed items. *)
Example main_saida :
  (main heap_vazio).1 =
  Ret [ "Instrumentos disponíveis na loja 1:";
        "Baixo: 1"; "Guitarra: 1"; "Violão: 0";
        String "010"%char "Funcionários na loja 1 por cargo:";
        "Vendedor: 1"; "Gerente: 1";
        String "010"%char "Após mudanças:";
        "Instrumentos disponíveis na loja 1:";
        "Baixo: 0"; "Guitarra: 1"; "Violão: 0";
        String "010"%char "Funcionários na loja 1 por cargo:";
        "Vendedor: 1" ].
Proof. vm_compute. reflexivity. Qed.

Example info_exemplos :
  info (Baixo "Fender" "Jazz Bass" 5000%float 4 false)
    = "Baixo Fender Jazz Bass, 4 cordas, com trastes" ∧
  info (Guitarra "Gibson" "Les Paul" 7000%float 6 "Humbucker")
    = "Guitarra Gibson Les Paul, 6 cordas, captador Humbucker" ∧
  info (Violao "Yamaha" "C40" 800%float 6 "Clássico")
    = "Violão Yamaha C40, 6 cordas, corpo Clássico".
Proof. split_and!; vm_compute; reflexivity. Qed.

(** ** The half of consistency that needs no discipline *)

(** X20: in every heap that well-typed statements reach, also when
    [adicionar_funcionario] was called for an employee of another store,
    an employee whose [loja_atual] is a store is in the list of that
    store, which is live; so [remover_funcionario] on that store returns
    normally, leaves [loja_atual] [None] and changes the list of no other
    store. *)
Theorem loja_atual_no_quadro σ e s :
  alcancavel bem_tipada σ → loja_de σ e = Some s →
  e ∈ quadro σ s ∧ is_Some (lojas σ !! s) ∧
  ∃ σ', remover_funcionario s e σ = (Ret tt, σ') ∧ loja_de σ' e = None ∧
        ∀ s', s' ≠ s → quadro σ' s' = quadro σ s'.
Proof.
  intros Hσ Hl. pose proof (alcancavel_semi_consistente σ Hσ e s Hl) as Hin.
  unfold loja_de in Hl. destruct (pessoal σ !! e) as [F|] eqn:He; [|done].
  unfold quadro in Hin.
  destruct (lojas σ !! s) as [L|] eqn:Hs; [|by apply elem_of_nil in Hin].
  simpl in Hin. split_and!; [by rewrite (quadro_lookup _ _ _ Hs) | by eexists |].
  destruct (py_remove_Some e _ Hin) as (l1 & l2 & _ & _ & Hrm).
  pose proof (remover_funcionario_run σ s e L F _ Hs He Hrm) as Hrun.
  eexists. split; [exact Hrun|].
  destruct (remover_funcionario_obs _ _ _ _ _ Hrun) as (l' & _ & Hq & Hl').
  split.
  - by rewrite Hl', decide_True.
  - intros s' Hne. by rewrite Hq, decide_False.
Qed.

Lemma loja_atual_no_quadro_witness :
  0%nat ∈ quadro heap_espelhado 1 ∧ is_Some (lojas heap_espelhado !! 1%nat) ∧
  ∃ σ', remover_funcionario 1 0 heap_espelhado = (Ret tt, σ') ∧
        loja_de σ' 0 = None ∧
        ∀ s', s' ≠ 1%nat → quadro σ' s' = quadro heap_espelhado s'.
Proof.
  apply (loja_atual_no_quadro heap_espelhado 0 1); [|reflexivity].
  apply alcancavel_executar_todas.
  - apply alcancavel_executar_todas; [constructor | vm_compute; reflexivity].
  - vm_compute. reflexivity.
Defined.
